(** * Aura voice chat and guardian bots: a shallow embedding

    This development embeds two modules of the Aura client in Rocq and
    proves properties of them:

    - the WebRTC voice chat class [VoiceChat] (microphone capture,
      voice-activity detection, the peer registry, signalling, spatial gain
      and teardown);
    - the shared guardian logic ([updateBot] and the helpers around it)
      and the level and form tables.

    Conventions of the embedding.

    - A JavaScript [number] is an exact number: a rational ([Q]) in the
      voice-activity code, which only adds, multiplies, divides and compares
      and so stays executable, and a real ([R]) where the code calls
      [Math.pow] or the trigonometric functions.  Rounding, [NaN] and the
      infinities of IEEE doubles are idealised away; the places where the
      JavaScript result would not be a finite number are named where they
      occur.  Two things of the doubles are kept where the code shows them:
      the sign of a zero that [Math.atan2] reads is an input of [updateBot],
      and [createBot] and [getRandomBotThought] round every sum and product
      with an explicit rounding function.
    - [Map<string, V>] is an insertion-ordered association list ([JSMap]),
      because the code iterates over the registry in insertion order.
    - Browser objects that the class shares by reference (media tracks,
      peer connections, audio elements) live in stores indexed by handle.
    - An [async] method is cut at its [await]s: the synchronous prefix is a
      function on worlds which may leave a pending [Task]; the host settles
      the awaited promise later ([resume]) with data of its choosing
      ([HostInput]).  Any other action may run in between. *)

From Stdlib Require Import Reals Lra Lia List String ZArith Strings.Byte.
From Stdlib Require Import QArith Qreals Lqa.
From stdpp Require Import base list strings.

Local Open Scope string_scope.

(** ** JavaScript [Map] with string keys *)

Module JSMap.
Section Ops.
Context {V : Type}.

Fixpoint get (k : string) (m : list (string * V)) : option V :=
  match m with
  | [] => None
  | (k', v) :: m' => if String.eqb k k' then Some v else get k m'
  end.

Definition has (k : string) (m : list (string * V)) : bool :=
  match get k m with Some _ => true | None => false end.

(** [set] overwrites in place when the key is present and appends
    otherwise, which is the iteration order of a JavaScript [Map]. *)
Fixpoint set (k : string) (v : V) (m : list (string * V)) : list (string * V) :=
  match m with
  | [] => [(k, v)]
  | (k', v') :: m' =>
      if String.eqb k k' then (k, v) :: m' else (k', v') :: set k v m'
  end.

Fixpoint delete (k : string) (m : list (string * V)) : list (string * V) :=
  match m with
  | [] => []
  | (k', v') :: m' =>
      if String.eqb k k' then delete k m' else (k', v') :: delete k m'
  end.

Definition keys (m : list (string * V)) : list string := map fst m.
Definition values (m : list (string * V)) : list V := map snd m.
End Ops.
End JSMap.

(** ** Numbers *)

Local Open Scope R_scope.
Local Open Scope list_scope.

(** [a > b] on numbers, as a boolean. *)
Definition Qgtb (a b : Q) : bool := negb (Qle_bool a b).

(** [x || d] for an optional numeric setting: [undefined] and [0] are falsy
    and select the default. *)
Definition or_default (x : option Q) (d : Q) : Q :=
  match x with
  | Some v => if Qeq_bool v 0 then d else v
  | None => d
  end.

(** [Math.pow(x, y)] for a base [x >= 0] and a positive exponent.  A negative
    base with a fractional exponent is [NaN] in JavaScript and is outside
    this model, as is a division by zero before it; the properties below are
    stated for distances that are not negative and a positive range. *)
Definition Math_pow (x y : R) : R :=
  if Rle_lt_dec x 0 then 0 else Rpower x y.

(** ** Browser objects *)

Inductive TrackKind := AudioKind | VideoKind.

(** A [MediaStreamTrack]: its kind, its [enabled] flag (the outbound gate) and
    whether [stop()] has ended it. *)
Record Track := mkTrack {
  kind : TrackKind;
  track_enabled : bool;
  ended : bool
}.

(** [RTCPeerConnection.signalingState].  The provisional-answer states are
    left out: the class never passes a description of type [pranswer]. *)
Inductive SignalingState := Stable | HaveLocalOffer | HaveRemoteOffer | Closed.

(** An [RTCPeerConnection] as the class sees it.  [owner] is the peer id
    captured by the closures installed as [ontrack] and [onicecandidate];
    [senders] are the handles of the capture tracks added with [addTrack]. *)
Record PeerConn := mkPeerConn {
  owner : string;
  signalingState : SignalingState;
  remoteSet : bool;
  senders : list nat
}.

(** A [GainNode]: the current value of its [gain] parameter and the last
    [setTargetAtTime(target, startTime, timeConstant)] scheduled on it. *)
Record GainNode := mkGainNode {
  gain_value : R;
  gain_target : option (R * R * R)
}.

(** An [<audio>] element created by [ontrack].  The element is never inserted
    into the document, so [remove()] has nothing to detach; releasing it is
    clearing [srcObject]. *)
Record AudioEl := mkAudioEl {
  srcObject : option nat;
  autoplay : bool
}.

(** An [AudioContext] and its [state]; [close()] is what ends it. *)
Inductive AudioContextState := Running | ContextClosed.

Record AudioContext := mkAudioContext {
  state : AudioContextState
}.

(** The analyser is created with [fftSize = 256] and never reconfigured. *)
Definition fftSize : nat := 256.
Definition frequencyBinCount : nat := fftSize / 2.

(** ** The [VoiceChat] object *)

(** The settings fields the class reads: the truthiness of [ptt], whether
    [vad] is the literal [false], and the optional numbers [sensitivity] and
    [volume]. *)
Record Settings := mkSettings {
  ptt : bool;
  vad_off : bool;
  sensitivity : option Q;
  volume : option Q
}.

Record VoiceChat := mkVoiceChat {
  enabled : bool;
  localStream : option (list nat);
  audioContext : option AudioContext;
  analyser : option unit;
  peers : list (string * nat);
  gains : list (string * GainNode);
  audioElements : list (string * nat);
  isSpeaking : bool;
  isPTTActive : bool;
  vadThreshold : Q;
  userId : string;
  signalSender : bool;
  onSpeakingChange : bool;
  onVolumeUpdate : bool;
  settings : Settings
}.

(** The object right after [new VoiceChat(settings)]. *)
Definition new_VoiceChat (s : Settings) : VoiceChat :=
  {| enabled := false; localStream := None; audioContext := None;
     analyser := None; peers := []; gains := []; audioElements := [];
     isSpeaking := false; isPTTActive := false; vadThreshold := 0.02%Q;
     userId := ""; signalSender := false;
     onSpeakingChange := false; onVolumeUpdate := false; settings := s |}.

(** Field updates of the object. *)
Definition set_enabled (b : bool) (v : VoiceChat) : VoiceChat :=
  mkVoiceChat b (localStream v) (audioContext v) (analyser v) (peers v)
    (gains v) (audioElements v) (isSpeaking v) (isPTTActive v)
    (vadThreshold v) (userId v) (signalSender v) (onSpeakingChange v)
    (onVolumeUpdate v) (settings v).
Definition set_localStream (s : option (list nat)) (v : VoiceChat) : VoiceChat :=
  mkVoiceChat (enabled v) s (audioContext v) (analyser v) (peers v)
    (gains v) (audioElements v) (isSpeaking v) (isPTTActive v)
    (vadThreshold v) (userId v) (signalSender v) (onSpeakingChange v)
    (onVolumeUpdate v) (settings v).
Definition set_audioContext (c : option AudioContext) (v : VoiceChat) : VoiceChat :=
  mkVoiceChat (enabled v) (localStream v) c (analyser v) (peers v)
    (gains v) (audioElements v) (isSpeaking v) (isPTTActive v)
    (vadThreshold v) (userId v) (signalSender v) (onSpeakingChange v)
    (onVolumeUpdate v) (settings v).
Definition set_analyser (a : option unit) (v : VoiceChat) : VoiceChat :=
  mkVoiceChat (enabled v) (localStream v) (audioContext v) a (peers v)
    (gains v) (audioElements v) (isSpeaking v) (isPTTActive v)
    (vadThreshold v) (userId v) (signalSender v) (onSpeakingChange v)
    (onVolumeUpdate v) (settings v).
Definition set_peers (m : list (string * nat)) (v : VoiceChat) : VoiceChat :=
  mkVoiceChat (enabled v) (localStream v) (audioContext v) (analyser v) m
    (gains v) (audioElements v) (isSpeaking v) (isPTTActive v)
    (vadThreshold v) (userId v) (signalSender v) (onSpeakingChange v)
    (onVolumeUpdate v) (settings v).
Definition set_gains (m : list (string * GainNode)) (v : VoiceChat) : VoiceChat :=
  mkVoiceChat (enabled v) (localStream v) (audioContext v) (analyser v)
    (peers v) m (audioElements v) (isSpeaking v) (isPTTActive v)
    (vadThreshold v) (userId v) (signalSender v) (onSpeakingChange v)
    (onVolumeUpdate v) (settings v).
Definition set_audioElements (m : list (string * nat)) (v : VoiceChat) : VoiceChat :=
  mkVoiceChat (enabled v) (localStream v) (audioContext v) (analyser v)
    (peers v) (gains v) m (isSpeaking v) (isPTTActive v)
    (vadThreshold v) (userId v) (signalSender v) (onSpeakingChange v)
    (onVolumeUpdate v) (settings v).
Definition set_isSpeaking (b : bool) (v : VoiceChat) : VoiceChat :=
  mkVoiceChat (enabled v) (localStream v) (audioContext v) (analyser v)
    (peers v) (gains v) (audioElements v) b (isPTTActive v)
    (vadThreshold v) (userId v) (signalSender v) (onSpeakingChange v)
    (onVolumeUpdate v) (settings v).
Definition set_isPTTActive (b : bool) (v : VoiceChat) : VoiceChat :=
  mkVoiceChat (enabled v) (localStream v) (audioContext v) (analyser v)
    (peers v) (gains v) (audioElements v) (isSpeaking v) b
    (vadThreshold v) (userId v) (signalSender v) (onSpeakingChange v)
    (onVolumeUpdate v) (settings v).
Definition set_userId (s : string) (v : VoiceChat) : VoiceChat :=
  mkVoiceChat (enabled v) (localStream v) (audioContext v) (analyser v)
    (peers v) (gains v) (audioElements v) (isSpeaking v) (isPTTActive v)
    (vadThreshold v) s (signalSender v) (onSpeakingChange v)
    (onVolumeUpdate v) (settings v).
Definition set_signalSender (b : bool) (v : VoiceChat) : VoiceChat :=
  mkVoiceChat (enabled v) (localStream v) (audioContext v) (analyser v)
    (peers v) (gains v) (audioElements v) (isSpeaking v) (isPTTActive v)
    (vadThreshold v) (userId v) b (onSpeakingChange v)
    (onVolumeUpdate v) (settings v).

Definition set_onSpeakingChange (b : bool) (v : VoiceChat) : VoiceChat :=
  mkVoiceChat (enabled v) (localStream v) (audioContext v) (analyser v)
    (peers v) (gains v) (audioElements v) (isSpeaking v) (isPTTActive v)
    (vadThreshold v) (userId v) (signalSender v) b
    (onVolumeUpdate v) (settings v).
Definition set_onVolumeUpdate (b : bool) (v : VoiceChat) : VoiceChat :=
  mkVoiceChat (enabled v) (localStream v) (audioContext v) (analyser v)
    (peers v) (gains v) (audioElements v) (isSpeaking v) (isPTTActive v)
    (vadThreshold v) (userId v) (signalSender v) (onSpeakingChange v)
    b (settings v).

(** ** Signals, observable events, pending continuations *)

(** The [data] object of a signal: the fields the class reads from it. *)
Record Payload := mkPayload {
  sdp : option string;
  candidate : option string
}.

(** The argument of [handleSignal].  [data] is typed [any]; [None] stands
    for [undefined] or [null], on which a property access throws. *)
Record Signal := mkSignal {
  from : string;
  signalType : string;
  data : option Payload
}.

(** What the class does to the outside: envelopes handed to the signal
    sender, console output, and the two callbacks. *)
Inductive Event :=
| Sent (targetId : string) (type : string) (payload : Payload)
| ConsoleLog (msg : string)
| ConsoleWarn (msg : string)
| ConsoleError (msg : string)
| SpeakingChange (speaking : bool)
| VolumeUpdate (level : Q).

(** A suspended [async] call, named after the promise it awaits, or the
    animation-frame callback of the VAD loop. *)
Inductive Task :=
| InitAwaitUserMedia
| ConnectAwaitCreateOffer (peerId : string) (pc : nat)
| ConnectAwaitSetLocal (peerId : string) (pc : nat) (offer : string)
| OfferAwaitSetRemote (peerId : string) (pc : nat)
| OfferAwaitCreateAnswer (peerId : string) (pc : nat)
| OfferAwaitSetLocal (peerId : string) (pc : nat) (answer : string)
| AnswerAwaitSetRemote (pc : nat)
| IceAwaitAdd (pc : nat)
| VadFrame.

Inductive Value := VVoid | VNull | VBool (b : bool) | VPc (pc : nat).

(** How far a call got: still awaiting, promise fulfilled, or promise
    rejected (an exception escaped the method). *)
Inductive Completion := Pending | Resolved (v : Value) | Rejected.

(** What the browser supplies when it settles an awaited promise or fires a
    frame: whether the operation succeeded, the session description it
    produced, the tracks of a granted capture stream, whether the audio
    graph of [init()] could be built, the analyser's frequency data, and,
    for a graph that could not be built, whether the [AudioContext]
    constructor had returned before the exception (which then came from
    [createMediaStreamSource] or [createAnalyser]). *)
Record HostInput := mkHostInput {
  h_ok : bool;
  h_sdp : string;
  h_tracks : list Track;
  h_graph_ok : bool;
  h_bins : list byte;
  h_context_ok : bool
}.

Record World := mkWorld {
  vc : VoiceChat;
  tracks : list Track;
  pcs : list PeerConn;
  audios : list AudioEl;
  tasks : list Task;
  trace : list Event
}.

Definition upd_vc (f : VoiceChat -> VoiceChat) (w : World) : World :=
  mkWorld (f (vc w)) (tracks w) (pcs w) (audios w) (tasks w) (trace w).
Definition with_tracks (ts : list Track) (w : World) : World :=
  mkWorld (vc w) ts (pcs w) (audios w) (tasks w) (trace w).
Definition with_pcs (ps : list PeerConn) (w : World) : World :=
  mkWorld (vc w) (tracks w) ps (audios w) (tasks w) (trace w).
Definition with_audios (a : list AudioEl) (w : World) : World :=
  mkWorld (vc w) (tracks w) (pcs w) a (tasks w) (trace w).
Definition with_tasks (t : list Task) (w : World) : World :=
  mkWorld (vc w) (tracks w) (pcs w) (audios w) t (trace w).
Definition emit (e : Event) (w : World) : World :=
  mkWorld (vc w) (tracks w) (pcs w) (audios w) (tasks w) (trace w ++ [e]).
Definition spawn (t : Task) (w : World) : World :=
  with_tasks (tasks w ++ [t]) w.

(** The world in which [new VoiceChat(settings)] has just run. *)
Definition new_World (s : Settings) : World :=
  mkWorld (new_VoiceChat s) [] [] [] [] [].

(** [this.signalSender(target, type, data)] when a sender is installed. *)
Definition send (target type : string) (d : Payload) (w : World) : World :=
  if signalSender (vc w) then emit (Sent target type d) w else w.

(** ** The browser's side of a peer connection *)

Inductive DescOp := SetLocalOffer | SetLocalAnswer | SetRemoteOffer | SetRemoteAnswer.

(** The signalling transitions of [setLocalDescription] and
    [setRemoteDescription]; [None] is [InvalidStateError].  A remote offer
    in [have-local-offer] rolls the local offer back. *)
Definition host_setDescription (op : DescOp) (s : SignalingState)
  : option SignalingState :=
  match op, s with
  | SetLocalOffer, Stable => Some HaveLocalOffer
  | SetLocalOffer, HaveLocalOffer => Some HaveLocalOffer
  | SetLocalAnswer, HaveRemoteOffer => Some Stable
  | SetRemoteOffer, Stable => Some HaveRemoteOffer
  | SetRemoteOffer, HaveRemoteOffer => Some HaveRemoteOffer
  | SetRemoteOffer, HaveLocalOffer => Some HaveRemoteOffer
  | SetRemoteAnswer, HaveLocalOffer => Some Stable
  | _, _ => None
  end.

Definition is_remote (op : DescOp) : bool :=
  match op with SetRemoteOffer | SetRemoteAnswer => true | _ => false end.

Definition is_closed (pc : PeerConn) : bool :=
  match signalingState pc with Closed => true | _ => false end.

(** The description operation [op] on connection [h] settles: [Some] world
    when the promise fulfils, [None] when it rejects. *)
Definition setDescription (op : DescOp) (ok : bool) (h : nat) (w : World)
  : option World :=
  match pcs w !! h with
  | Some pc =>
      if ok then
        match host_setDescription op (signalingState pc) with
        | Some s' =>
            Some (with_pcs
                    (<[h := mkPeerConn (owner pc) s'
                              (is_remote op || remoteSet pc) (senders pc)]>
                       (pcs w)) w)
        | None => None
        end
      else None
  | None => None
  end.

(** [createOffer] fulfils on any connection that is not closed. *)
Definition createOffer_ok (ok : bool) (h : nat) (w : World) : bool :=
  match pcs w !! h with
  | Some pc => ok && negb (is_closed pc)
  | None => false
  end.

(** [createAnswer] needs a remote offer to answer. *)
Definition createAnswer_ok (ok : bool) (h : nat) (w : World) : bool :=
  match pcs w !! h with
  | Some pc =>
      ok && match signalingState pc with HaveRemoteOffer => true | _ => false end
  | None => false
  end.

(** [addIceCandidate] needs an open connection with a remote description. *)
Definition addIceCandidate_ok (ok : bool) (h : nat) (w : World) : bool :=
  match pcs w !! h with
  | Some pc => ok && negb (is_closed pc) && remoteSet pc
  | None => false
  end.

(** [pc.close()]. *)
Definition close_conn (c : PeerConn) : PeerConn :=
  mkPeerConn (owner c) Closed (remoteSet c) (senders c).

Definition close_pc (h : nat) (w : World) : World :=
  with_pcs (alter close_conn h (pcs w)) w.

(** [new RTCPeerConnection(...)] followed by [addTrack] for every track of
    the local stream and the installation of the two handlers for [peerId];
    returns the handle of the new connection.  The constructor is given a
    constant, valid configuration and is taken to succeed. *)
Definition new_pc (peerId : string) (w : World) : World * nat :=
  let h := length (pcs w) in
  let trs := match localStream (vc w) with Some hs => hs | None => [] end in
  (with_pcs (pcs w ++ [mkPeerConn peerId Stable false trs]) w, h).

(** ** Methods of [VoiceChat] *)

Definition is_audio (ts : list Track) (h : nat) : bool :=
  match ts !! h with
  | Some t => match kind t with AudioKind => true | VideoKind => false end
  | None => false
  end.

(** [stream.getAudioTracks()] on a stream given by its track handles. *)
Definition getAudioTracks (ts : list Track) (hs : list nat) : list nat :=
  List.filter (is_audio ts) hs.

(** [handles.forEach(h => f(store[h]))] for an update [f] of one object. *)
Definition alter_all {A} (f : A -> A) (hs : list nat) (l : list A) : list A :=
  fold_left (fun l h => alter f h l) hs l.

Definition gate_track (b : bool) (t : Track) : Track :=
  mkTrack (kind t) b (ended t).

Definition stop_track (t : Track) : Track :=
  mkTrack (kind t) (track_enabled t) true.

(** [tracks.forEach(track => track.enabled = b)]. *)
Definition gate_tracks (b : bool) (hs : list nat) (ts : list Track) : list Track :=
  alter_all (gate_track b) hs ts.

(** [tracks.forEach(t => t.stop())]. *)
Definition stop_tracks (hs : list nat) (ts : list Track) : list Track :=
  alter_all stop_track hs ts.

Definition byte_to_Q (b : byte) : Q := inject_Z (Z.of_N (Byte.to_N b)).

(** [array.reduce((a, b) => a + b)] without an initial value: a [TypeError]
    ([None]) on an empty array. *)
Definition reduce_add (l : list Q) : option Q :=
  match l with
  | [] => None
  | a :: l' => Some (fold_left Qplus l' a)
  end.

(** The contents of [dataArray] after [getByteFrequencyData]: the array has
    [frequencyBinCount] entries, which the host overwrites with its data. *)
Definition dataArray (bins : list byte) : list byte :=
  resize frequencyBinCount x00 bins.

(** The level of one frame: the mean of the array divided by 255. *)
Definition level (bins : list byte) : option Q :=
  match reduce_add (map byte_to_Q (dataArray bins)) with
  | Some s =>
      Some (s / inject_Z (Z.of_nat (length (dataArray bins))) / 255)%Q
  | None => None
  end.

Definition threshold (v : VoiceChat) : Q :=
  (vadThreshold v * (1 + (1 - or_default (sensitivity (settings v)) 0.5)))%Q.

(** The value of [this.isSpeaking] after the mode test of a frame. *)
Definition speaking_after (v : VoiceChat) (avg : Q) : bool :=
  if ptt (settings v) then isPTTActive v && Qgtb avg (threshold v * 0.5)%Q
  else if negb (vad_off (settings v)) then Qgtb avg (threshold v)
  else isSpeaking v.

(** The closure [check] of [startVAD], run once with the data the host puts
    into [dataArray].  It ends the loop when the chat is disabled or has no
    analyser; otherwise it updates [isSpeaking], calls the callbacks and asks
    for the next animation frame. *)
Definition check (bins : list byte) (w : World) : World :=
  if negb (enabled (vc w)) || negb (bool_decide (is_Some (analyser (vc w))))
  then w
  else
    match level bins with
    | None => w (* unreachable: [dataArray] has 128 entries *)
    | Some avg =>
        let wasSpeaking := isSpeaking (vc w) in
        let now := speaking_after (vc w) avg in
        let w1 := upd_vc (set_isSpeaking now) w in
        let w2 :=
          if negb (Bool.eqb now wasSpeaking) && onSpeakingChange (vc w1)
          then emit (SpeakingChange now) w1 else w1 in
        let w3 := if onVolumeUpdate (vc w2) then emit (VolumeUpdate avg) w2 else w2 in
        spawn VadFrame w3
    end.

Definition startVAD (bins : list byte) (w : World) : World :=
  match analyser (vc w) with
  | None => w
  | Some _ => check bins w
  end.

(** [init()] up to its [await]: the request for the microphone is pending. *)
Definition init (w : World) : World * Completion :=
  (spawn InitAwaitUserMedia w, Pending).

(** [init()] after [getUserMedia] settled.  A rejection, and an exception
    while the audio graph is built, both land in the [catch]; the stream is
    assigned before the graph is built, and the context is assigned as soon
    as its constructor returns. *)
Definition init_continue (h : HostInput) (w : World) : World * Completion :=
  if h_ok h then
    let hs := seq (length (tracks w)) (length (h_tracks h)) in
    let w1 := with_tracks (tracks w ++ h_tracks h)
                (upd_vc (set_localStream (Some hs)) w) in
    if h_graph_ok h then
      let w2 := upd_vc (fun v => set_analyser (Some tt)
                                   (set_audioContext
                                      (Some (mkAudioContext Running)) v)) w1 in
      let w3 := with_tracks
                  (gate_tracks (negb (ptt (settings (vc w2))))
                     (getAudioTracks (tracks w2) hs) (tracks w2)) w2 in
      let w4 := upd_vc (set_enabled true) w3 in
      (startVAD (h_bins h) w4, Resolved (VBool true))
    else
      let w2 :=
        if h_context_ok h
        then upd_vc (set_audioContext (Some (mkAudioContext Running))) w1
        else w1 in
      (emit (ConsoleError "Voice init failed:") w2, Resolved (VBool false))
  else (emit (ConsoleError "Voice init failed:") w, Resolved (VBool false)).

Definition setPTT (active : bool) (w : World) : World :=
  let w1 := upd_vc (set_isPTTActive active) w in
  match localStream (vc w1) with
  | Some hs =>
      with_tracks (gate_tracks active (getAudioTracks (tracks w1) hs) (tracks w1)) w1
  | None => w1
  end.

(** [connectToPeer(peerId)] up to its first [await]. *)
Definition connectToPeer (peerId : string) (w : World) : World * Completion :=
  if negb (enabled (vc w)) || JSMap.has peerId (peers (vc w))
  then (w, Resolved VNull)
  else
    let '(w1, pc) := new_pc peerId w in
    let w2 := upd_vc (set_peers (JSMap.set peerId pc (peers (vc w1)))) w1 in
    (spawn (ConnectAwaitCreateOffer peerId pc) w2, Pending).

(** [handleSignal(signal)] up to its first [await]. *)
Definition handleSignal (s : Signal) (w : World) : World * Completion :=
  if negb (enabled (vc w)) then (w, Resolved VVoid)
  else if String.eqb (signalType s) "offer" then
    let '(w1, pc) :=
      match JSMap.get (from s) (peers (vc w)) with
      | Some pc => (w, pc)
      | None =>
          let '(w0, pc) := new_pc (from s) w in
          (upd_vc (set_peers (JSMap.set (from s) pc (peers (vc w0)))) w0, pc)
      end in
    match data s with
    | None => (w1, Rejected)
    | Some _ => (spawn (OfferAwaitSetRemote (from s) pc) w1, Pending)
    end
  else if String.eqb (signalType s) "answer" then
    match JSMap.get (from s) (peers (vc w)) with
    | Some pc =>
        match pcs w !! pc with
        | Some c =>
            match signalingState c with
            | Stable => (w, Resolved VVoid)
            | _ =>
                match data s with
                | None => (w, Rejected)
                | Some _ => (spawn (AnswerAwaitSetRemote pc) w, Pending)
                end
            end
        | None => (w, Resolved VVoid)
        end
    | None => (w, Resolved VVoid)
    end
  else if String.eqb (signalType s) "ice" then
    match data s with
    | None => (w, Rejected)
    | Some d =>
        match candidate d with
        | None => (w, Resolved VVoid)
        | Some _ =>
            match JSMap.get (from s) (peers (vc w)) with
            | Some pc => (spawn (IceAwaitAdd pc) w, Pending)
            | None => (w, Resolved VVoid)
            end
        end
    end
  else (w, Resolved VVoid).

(** The master volume factor of [updateSpatialAudio]. *)
Definition masterVolume (s : Settings) : Q := or_default (volume s) 0.7%Q.

(** The target volume for a peer at [distance]. *)
Definition spatialVolume (s : Settings) (distance maxDistance : R) : R :=
  Rmax 0 (1 - Math_pow (distance / maxDistance) 0.8) * Q2R (masterVolume s).

(** [updateSpatialAudio]; [currentTime] is the clock of the audio context. *)
Definition updateSpatialAudio (peerId : string) (distance maxDistance : R)
    (currentTime : R) (w : World) : World :=
  match JSMap.get peerId (gains (vc w)), audioContext (vc w) with
  | Some g, Some _ =>
      let volume := spatialVolume (settings (vc w)) distance maxDistance in
      upd_vc (set_gains
                (JSMap.set peerId
                   (mkGainNode (gain_value g) (Some (volume, currentTime, 0.1)))
                   (gains (vc w)))) w
  | _, _ => w
  end.

(** [audio.srcObject = null; audio.remove()]. *)
Definition release_el (el : AudioEl) : AudioEl := mkAudioEl None (autoplay el).

Definition release_audio (a : nat) (w : World) : World :=
  with_audios (alter release_el a (audios w)) w.

Definition disconnectPeer (peerId : string) (w : World) : World :=
  let w1 :=
    match JSMap.get peerId (peers (vc w)) with
    | Some pc =>
        upd_vc (fun v => set_peers (JSMap.delete peerId (peers v)) v)
          (close_pc pc w)
    | None => w
    end in
  let w2 := upd_vc (fun v => set_gains (JSMap.delete peerId (gains v)) v) w1 in
  match JSMap.get peerId (audioElements (vc w2)) with
  | Some a =>
      upd_vc (fun v => set_audioElements
                         (JSMap.delete peerId (audioElements v)) v)
        (release_audio a w2)
  | None => w2
  end.

(** [nearbyPlayerIds.has(peerId)] on a set given by its elements. *)
Definition Set_has (peerId : string) (ids : list string) : bool :=
  existsb (String.eqb peerId) ids.

(** The body of the first loop of [updateNearbyPeers].  The promise of
    [connectToPeer] is dropped, as in the source. *)
Definition connect_if_new (w : World) (peerId : string) : World :=
  if String.eqb peerId (userId (vc w)) then w
  else if negb (JSMap.has peerId (peers (vc w))) then
    fst (connectToPeer peerId
           (emit (ConsoleLog ("Initiating voice connection to " ++ peerId)) w))
  else w.

(** The body of the second loop. *)
Definition disconnect_if_gone (nearbyPlayerIds : list string) (w : World)
    (peerId : string) : World :=
  if negb (Set_has peerId nearbyPlayerIds) then
    disconnectPeer peerId
      (emit (ConsoleLog ("Disconnecting voice from " ++ peerId)) w)
  else w.

(** [updateNearbyPeers].  The set is given by its elements in insertion
    order.  The second loop walks the keys of the registry; a key is only
    ever deleted while it is the current one, so walking the keys as they
    were when the loop began visits the same entries. *)
Definition updateNearbyPeers (nearbyPlayerIds : list string) (voiceRange : R)
    (w : World) : World :=
  if negb (enabled (vc w)) then w
  else
    let w1 := fold_left connect_if_new nearbyPlayerIds w in
    fold_left (disconnect_if_gone nearbyPlayerIds)
      (JSMap.keys (peers (vc w1))) w1.

Definition getConnectedPeers (w : World) : list string :=
  JSMap.keys (peers (vc w)).

Definition disable (w : World) : World :=
  let w1 := upd_vc (fun v => set_isSpeaking false (set_enabled false v)) w in
  let w2 :=
    match localStream (vc w1) with
    | Some hs =>
        upd_vc (set_localStream None)
          (with_tracks (stop_tracks hs (tracks w1)) w1)
    | None => w1
    end in
  let w3 := fold_left (fun w pc => close_pc pc w) (JSMap.values (peers (vc w2))) w2 in
  let w4 := upd_vc (fun v => set_gains [] (set_peers [] v)) w3 in
  let w5 := fold_left (fun w a => release_audio a w)
              (JSMap.values (audioElements (vc w4))) w4 in
  upd_vc (set_audioElements []) w5.

(** ** Handlers and continuations run by the host *)

(** The [ontrack] handler of connection [pc], fired with a remote stream.
    A closed connection fires no events. *)
Definition ontrack (pc : nat) (stream : nat) (w : World) : World :=
  match pcs w !! pc with
  | Some c =>
      if is_closed c then w
      else
        let peerId := owner c in
        let w1 :=
          match JSMap.get peerId (audioElements (vc w)) with
          | Some a => release_audio a w
          | None => w
          end in
        let audio := length (audios w1) in
        let w2 := with_audios (audios w1 ++ [mkAudioEl (Some stream) true]) w1 in
        let w3 := upd_vc (fun v => set_audioElements
                                     (JSMap.set peerId audio (audioElements v)) v) w2 in
        match audioContext (vc w3) with
        | Some _ =>
            upd_vc (fun v => set_gains
                               (JSMap.set peerId (mkGainNode 1 None) (gains v)) v) w3
        | None => w3
        end
  | None => w
  end.

(** The [onicecandidate] handler of connection [pc]; [None] is the null
    candidate that ends gathering. *)
Definition onicecandidate (pc : nat) (cand : option string) (w : World) : World :=
  match pcs w !! pc with
  | Some c =>
      if is_closed c then w
      else
        match cand with
        | Some k => send (owner c) "ice" (mkPayload None (Some k)) w
        | None => w
        end
  | None => w
  end.

(** The rest of a suspended call once the host has settled what it awaits. *)
Definition continue (t : Task) (h : HostInput) (w : World) : World * Completion :=
  match t with
  | InitAwaitUserMedia => init_continue h w
  | ConnectAwaitCreateOffer peerId pc =>
      if createOffer_ok (h_ok h) pc w
      then (spawn (ConnectAwaitSetLocal peerId pc (h_sdp h)) w, Pending)
      else (w, Rejected)
  | ConnectAwaitSetLocal peerId pc offer =>
      match setDescription SetLocalOffer (h_ok h) pc w with
      | Some w1 =>
          (send peerId "offer" (mkPayload (Some offer) None) w1, Resolved (VPc pc))
      | None => (w, Rejected)
      end
  | OfferAwaitSetRemote peerId pc =>
      match setDescription SetRemoteOffer (h_ok h) pc w with
      | Some w1 => (spawn (OfferAwaitCreateAnswer peerId pc) w1, Pending)
      | None => (w, Rejected)
      end
  | OfferAwaitCreateAnswer peerId pc =>
      if createAnswer_ok (h_ok h) pc w
      then (spawn (OfferAwaitSetLocal peerId pc (h_sdp h)) w, Pending)
      else (w, Rejected)
  | OfferAwaitSetLocal peerId pc answer =>
      match setDescription SetLocalAnswer (h_ok h) pc w with
      | Some w1 =>
          (send peerId "answer" (mkPayload (Some answer) None) w1, Resolved VVoid)
      | None => (w, Rejected)
      end
  | AnswerAwaitSetRemote pc =>
      match setDescription SetRemoteAnswer (h_ok h) pc w with
      | Some w1 => (w1, Resolved VVoid)
      | None => (w, Rejected)
      end
  | IceAwaitAdd pc =>
      if addIceCandidate_ok (h_ok h) pc w then (w, Resolved VVoid)
      else (emit (ConsoleWarn "ICE candidate error:") w, Resolved VVoid)
  | VadFrame => (check (h_bins h) w, Resolved VVoid)
  end.

(** ** Interleavings *)

(** Everything that can happen to a [VoiceChat]: a caller invokes a method,
    the host settles the promise a pending task awaits, or the host fires a
    connection event. *)
Inductive Action :=
| Call_setUserId (id : string)
| Call_setSignalSender
| Assign_onSpeakingChange
| Assign_onVolumeUpdate
| Call_init
| Call_setPTT (active : bool)
| Call_connectToPeer (peerId : string)
| Call_handleSignal (s : Signal)
| Call_updateSpatialAudio (peerId : string) (distance maxDistance currentTime : R)
| Call_disconnectPeer (peerId : string)
| Call_updateNearbyPeers (nearbyPlayerIds : list string) (voiceRange : R)
| Call_disable
| Settle (i : nat) (h : HostInput)
| Fire_track (pc stream : nat)
| Fire_icecandidate (pc : nat) (cand : option string).

Definition step (a : Action) (w : World) : World :=
  match a with
  | Call_setUserId id => upd_vc (set_userId id) w
  | Call_setSignalSender => upd_vc (set_signalSender true) w
  | Assign_onSpeakingChange => upd_vc (set_onSpeakingChange true) w
  | Assign_onVolumeUpdate => upd_vc (set_onVolumeUpdate true) w
  | Call_init => fst (init w)
  | Call_setPTT active => setPTT active w
  | Call_connectToPeer peerId => fst (connectToPeer peerId w)
  | Call_handleSignal s => fst (handleSignal s w)
  | Call_updateSpatialAudio peerId d m t => updateSpatialAudio peerId d m t w
  | Call_disconnectPeer peerId => disconnectPeer peerId w
  | Call_updateNearbyPeers ids r => updateNearbyPeers ids r w
  | Call_disable => disable w
  | Settle i h =>
      match tasks w !! i with
      | Some t => fst (continue t h (with_tasks (delete i (tasks w)) w))
      | None => w
      end
  | Fire_track pc stream => ontrack pc stream w
  | Fire_icecandidate pc cand => onicecandidate pc cand w
  end.

(** The world after a schedule of actions. *)
Definition run (acts : list Action) (w : World) : World :=
  fold_left (fun w a => step a w) acts w.

(** ** The registry invariant *)

(** Every registered handle is an open connection made for its key, and
    every open connection is the registered one of its peer. *)
Definition RegInv (m : list (string * nat)) (ps : list PeerConn) : Prop :=
  (forall p h, JSMap.get p m = Some h ->
     exists c, ps !! h = Some c /\ owner c = p /\ is_closed c = false) /\
  (forall h c, ps !! h = Some c -> is_closed c = false ->
     JSMap.get (owner c) m = Some h).

(** The connect tasks point at a connection made for their peer. *)
Definition task_wf (ps : list PeerConn) (t : Task) : Prop :=
  match t with
  | ConnectAwaitCreateOffer p pc | ConnectAwaitSetLocal p pc _ =>
      exists c, ps !! pc = Some c /\ owner c = p
  | _ => True
  end.

Definition Good (w : World) : Prop :=
  RegInv (peers (vc w)) (pcs w) /\ Forall (task_wf (pcs w)) (tasks w).

(** The handles of the open connections made for [peerId]. *)
Definition live_connections (peerId : string) (w : World) : list nat :=
  List.filter
    (fun h => match pcs w !! h with
              | Some c => String.eqb (owner c) peerId && negb (is_closed c)
              | None => false
              end)
    (seq 0 (length (pcs w))).

(** The targets of the offer envelopes in a trace, oldest first. *)
Fixpoint offers_sent (tr : list Event) : list string :=
  match tr with
  | [] => []
  | Sent target type _ :: tr' =>
      if String.eqb type "offer" then target :: offers_sent tr'
      else offers_sent tr'
  | _ :: tr' => offers_sent tr'
  end.

(** A transition that keeps the invariant and sends no offer. *)
Definition Quiet (w w' : World) : Prop :=
  Good w -> Good w' /\ offers_sent (trace w') = offers_sent (trace w).

(** The peer has a registered connection, and that connection is open. *)
Definition registered_open (p : string) (w : World) : Prop :=
  exists pc c, JSMap.get p (peers (vc w)) = Some pc /\ pcs w !! pc = Some c /\
               is_closed c = false.

(** A transition that keeps the invariant and sends offers only to peers
    that were registered when it began. *)
Definition Sound (w w' : World) : Prop :=
  Good w ->
  Good w' /\
  exists new, offers_sent (trace w') = offers_sent (trace w) ++ new /\
              forall p, In p new -> registered_open p w.

(** Closing a list of handles, as the connection store sees it. *)
Definition close_all (hs : list nat) (ps : list PeerConn) : list PeerConn :=
  alter_all close_conn hs ps.

(** ** Statements under test and sample worlds *)

(** The analysis path is torn down, in the weakest sense: the analyser is
    gone from the object, or the audio context is gone or closed. *)
Definition analysis_torn_down (w : World) : Prop :=
  analyser (vc w) = None \/
  match audioContext (vc w) with
  | None => True
  | Some c => state c = ContextClosed
  end.

(** The outbound gate moves only in push-to-talk mode: outside that mode
    [setPTT] leaves every track as it is. *)
Definition gate_only_in_ptt_mode : Prop :=
  forall (active : bool) (w : World),
    ptt (settings (vc w)) = false -> tracks (setPTT active w) = tracks w.

(** The threshold follows the configured sensitivity, whatever its value. *)
Definition threshold_follows_sensitivity : Prop :=
  forall (v : VoiceChat) (s : Q),
    sensitivity (settings v) = Some s ->
    (threshold v == vadThreshold v * (1 + (1 - s)))%Q.

(** Outside push-to-talk mode, [isSpeaking] after a frame says whether the
    level exceeds the threshold. *)
Definition speaking_follows_level : Prop :=
  forall (bins : list byte) (w : World) (avg : Q),
    enabled (vc w) = true -> is_Some (analyser (vc w)) ->
    ptt (settings (vc w)) = false -> level bins = Some avg ->
    (isSpeaking (vc (check bins w)) = true <-> (threshold (vc w) < avg)%Q).

(** The spatial volume is the distance falloff times the configured master
    volume, whatever its value. *)
Definition volume_scales_with_master : Prop :=
  forall (s : Settings) (v : Q) (distance maxDistance : R),
    volume s = Some v ->
    spatialVolume s distance maxDistance =
    Rmax 0 (1 - Math_pow (distance / maxDistance) 0.8) * Q2R v.

(** Open-microphone settings with nothing else configured. *)
Definition open_mic : Settings := mkSettings false false None None.

(** A granted microphone: one live audio track, a working audio graph, and
    a quiet first frame. *)
Definition granted : HostInput :=
  mkHostInput true "v=0" [mkTrack AudioKind true false] true [] true.

(** An enabled chat whose settings switch voice-activity detection off. *)
Definition vad_off_world : World :=
  run [Call_init; Settle 0 granted] (new_World (mkSettings false true None None)).

(** A refused microphone. *)
Definition denied : HostInput := mkHostInput false "" [] false [] false.

(** A granted microphone on a page where the audio graph cannot be built:
    the [AudioContext] constructor throws. *)
Definition granted_without_graph : HostInput :=
  mkHostInput true "" [mkTrack AudioKind true false] false [] false.

(** An answer from a peer whose connection is stable, and a candidate from
    a peer that was never registered. *)
Definition late_answer : Signal :=
  mkSignal "bob" "answer" (Some (mkPayload (Some "v=0") None)).

Definition stray_candidate : Signal :=
  mkSignal "carol" "ice" (Some (mkPayload None (Some "candidate:1"))).

(** A chat that was enabled, has called one peer and plays that peer's
    stream. *)
Definition talking_world : World :=
  run [Call_setSignalSender; Call_init; Settle 0 granted;
       Call_connectToPeer "bob"; Fire_track 0 7] (new_World open_mic).

(** The chat of [talking_world] with the master volume turned down to
    zero. *)
Definition muted_world : World :=
  run [Call_setSignalSender; Call_init; Settle 0 granted;
       Call_connectToPeer "bob"; Fire_track 0 7]
    (new_World (mkSettings false false None (Some 0%Q))).

(** Connections are never removed from the store nor re-owned. *)
Definition owners_kept (ps ps' : list PeerConn) : Prop :=
  forall h c, ps !! h = Some c -> exists c', ps' !! h = Some c' /\ owner c' = owner c.

(** ** Playback elements, envelopes and sample negotiations *)

(** Every playback element that still has a source is the tracked element
    of some peer, and every peer with a gain node has a tracked element. *)
Definition AudioInv (w : World) : Prop :=
  (forall a el, audios w !! a = Some el -> srcObject el <> None ->
     exists p, JSMap.get p (audioElements (vc w)) = Some a) /\
  (forall p, JSMap.has p (gains (vc w)) = true ->
     JSMap.has p (audioElements (vc w)) = true).

(** The envelopes of a trace. *)
Fixpoint sends (tr : list Event) : list Event :=
  match tr with
  | [] => []
  | Sent target type d :: tr' => Sent target type d :: sends tr'
  | _ :: tr' => sends tr'
  end.

(** A transition that installs no sender and hands nothing to one. *)
Definition Mute (w w' : World) : Prop :=
  signalSender (vc w) = false ->
  signalSender (vc w') = false /\ sends (trace w') = sends (trace w).

(** The tracks of the local stream, which every new connection is given as
    its senders. *)
Definition stream_tracks (w : World) : list nat :=
  match localStream (vc w) with Some hs => hs | None => [] end.

(** A host that fulfils the awaited promise and, where a description is
    created, produces [sdp]. *)
Definition fulfilled (sdp : string) : HostInput :=
  mkHostInput true sdp [] true [] true.

(** An enabled chat with a sender that knows nobody yet. *)
Definition ready_world : World :=
  run [Call_setSignalSender; Call_init; Settle 0 granted] (new_World open_mic).

(** * Guardian bots *)

Module Bot.

Definition CAMPFIRE_RADIUS : R := 1200.

Record Bot := mkBot {
  id : string;
  x : R;
  y : R;
  vx : R;
  vy : R;
  hue : R;
  name : string;
  xp : R;
  moveAngle : R;
  timer : R;
  actionTimer : R;
  thinkTimer : R;
  realm : string
}.

Definition Rltb (a b : R) : bool := if Rlt_dec a b then true else false.

Definition Math_hypot (a b : R) : R := sqrt (a * a + b * b).

(** The reals have one zero where a JavaScript number has two, and
    [Math.atan2] reads the sign of a zero argument.  So the model is told
    which zero a coordinate is when it is zero: [true] for the negative
    zero.  The flag of a coordinate that is not zero is never read. *)
Record ZeroSigns := mkZeroSigns {
  x_neg0 : bool;
  y_neg0 : bool;
  targetX_neg0 : bool;
  targetY_neg0 : bool
}.

(** Whether [-a] is the negative zero, for [a] a zero: the sign flips. *)
Definition opp_neg0 (a_neg0 : bool) : bool := negb a_neg0.

(** Whether [a - b] is the negative zero, for a difference that is zero.
    The difference of two equal numbers is the positive zero, except
    [(-0) - (+0)]. *)
Definition sub_neg0 (a_neg0 b_neg0 : bool) (a : R) : bool :=
  if Req_dec_T a 0 then a_neg0 && negb b_neg0 else false.

(** [Math.atan2(y, x)]; [y_neg] and [x_neg] say whether the argument, when
    it is zero, is the negative zero.  With [y] a zero and [x] negative
    (or the negative zero) the result is [pi] for the positive zero and
    [- pi] for the negative one. *)
Definition Math_atan2 (y_neg x_neg : bool) (y x : R) : R :=
  if Rlt_dec 0 x then atan (y / x)
  else if Rlt_dec x 0 then
    if Rlt_dec 0 y then atan (y / x) + PI
    else if Rlt_dec y 0 then atan (y / x) - PI
    else if y_neg then - PI else PI
  else if Rlt_dec 0 y then PI / 2
  else if Rlt_dec y 0 then - (PI / 2)
  else if x_neg then (if y_neg then - PI else PI)
  else 0.

(** The heading after the random change of direction.  [r1] and [r2] are the
    results of the two calls of [Math.random()]; the second call is made only
    when the first is below 0.02. *)
Definition jitter (angle r1 r2 : R) : R :=
  if Rltb r1 0.02 then angle + (r2 - 0.5) * 2 else angle.

(** [Math.atan2(targetY - bot.y, targetX - bot.x)]. *)
Definition angleToTarget (bot : Bot) (z : ZeroSigns) (tx ty : R) : R :=
  Math_atan2 (sub_neg0 (targetY_neg0 z) (y_neg0 z) ty)
    (sub_neg0 (targetX_neg0 z) (x_neg0 z) tx) (ty - y bot) (tx - x bot).

(** [Math.atan2(-bot.y, -bot.x)]. *)
Definition angleToCenter (bot : Bot) (z : ZeroSigns) : R :=
  Math_atan2 (opp_neg0 (y_neg0 z)) (opp_neg0 (x_neg0 z)) (- y bot) (- x bot).

(** The pull toward a target at a distance strictly between 100 and 400. *)
Definition toward_target (bot : Bot) (z : ZeroSigns) (targetX targetY : option R)
    (angle : R) : R :=
  match targetX, targetY with
  | Some tx, Some ty =>
      let distToTarget := Math_hypot (x bot - tx) (y bot - ty) in
      if Rltb distToTarget 400 && Rltb 100 distToTarget then
        angle * 0.95 + angleToTarget bot z tx ty * 0.05
      else angle
  | _, _ => angle
  end.

(** The pull toward the centre once the bot is outside the campfire radius. *)
Definition toward_center (bot : Bot) (z : ZeroSigns) (angle : R) : R :=
  if Rltb CAMPFIRE_RADIUS (Math_hypot (x bot) (y bot)) then
    angle * 0.9 + angleToCenter bot z * 0.1
  else angle.

(** [updateBot(bot, targetX, targetY)]: the bot object after the call, given
    what [Math.random()] returned and which zero a zero coordinate is. *)
Definition updateBot (bot : Bot) (z : ZeroSigns) (targetX targetY : option R)
    (r1 r2 : R) : Bot :=
  let angle :=
    toward_center bot z (toward_target bot z targetX targetY
                           (jitter (moveAngle bot) r1 r2)) in
  let vx' := (vx bot + cos angle * 0.2) * 0.94 in
  let vy' := (vy bot + sin angle * 0.2) * 0.94 in
  mkBot (id bot) (x bot + vx') (y bot + vy') vx' vy' (hue bot) (name bot)
    (xp bot) angle (timer bot + 1) (actionTimer bot + 1) (thinkTimer bot + 1)
    (realm bot).

(** The heading as the interface description words it: toward the target
    when the target is in band, else toward the world centre.  The weights
    are those of the code. *)
Definition described_heading (bot : Bot) (z : ZeroSigns)
    (targetX targetY : option R) : R :=
  match targetX, targetY with
  | Some tx, Some ty =>
      let distToTarget := Math_hypot (x bot - tx) (y bot - ty) in
      if Rltb distToTarget 400 && Rltb 100 distToTarget then
        moveAngle bot * 0.95 + angleToTarget bot z tx ty * 0.05
      else moveAngle bot * 0.9 + angleToCenter bot z * 0.1
  | _, _ => moveAngle bot * 0.9 + angleToCenter bot z * 0.1
  end.

(** The update as the interface description words it: a function of the
    bot and the target alone, whose heading is [described_heading]. *)
Definition described_update : Prop :=
  forall (bot : Bot) (z : ZeroSigns) (targetX targetY : option R) (r1 r2 : R),
    moveAngle (updateBot bot z targetX targetY r1 r2) =
    described_heading bot z targetX targetY.

(** A guardian resting near the campfire, heading east. *)
Definition resting_bot : Bot :=
  mkBot "bot-1" 3 4 0 0 200 "Guardian" 500 0 0 0 0 "genesis".

(** Coordinates none of which is the negative zero. *)
Definition positive_zeros : ZeroSigns := mkZeroSigns false false false false.

(** A guardian due east of the campfire, outside its radius, on the axis. *)
Definition east_bot : Bot :=
  mkBot "bot-2" 1500 0 0 0 200 "Guardian" 500 0 0 0 0 "genesis".

(** ** The other guardian helpers *)

(** The other helpers compute in binary64 arithmetic, and what they promise
    depends on how results are rounded: [rnd] is the rounding of a real
    result to a double.  The proofs use of it only what [rounding] says,
    which round-to-nearest has: it is monotone, it leaves a double as it
    is, and the integers up to [2 ^ 53] in magnitude are doubles. *)
Record rounding (rnd : R -> R) : Prop := mkRounding {
  rnd_mono : forall a b, a <= b -> rnd a <= rnd b;
  rnd_idem : forall a, rnd (rnd a) = rnd a;
  rnd_int : forall n : Z, (Z.abs n <= 2 ^ 53)%Z -> rnd (IZR n) = IZR n
}.

(** The largest value of [Math.random()]: the largest double below 1. *)
Definition MAX_DRAW : R := 1 - / 2 ^ 53.

Definition BOT_THOUGHTS : list string :=
  ["Do you hear the music?"; "We drift together..."; "The light is strong here";
   "I'm waiting for more"; "Do you see the stars?"; "Welcome, wanderer";
   "The cosmos breathes"; "Not alone anymore"; "Time flows differently here";
   "Every connection matters"; "The void listens"; "Stars remember us"].

(** [createBot(x, y, realm)].  [suffix] is the text
    [Math.random().toString(36).substr(2, 9)] of the first draw; [r_hue],
    [r_xp] and [r_angle] are the next three draws.  [Math.PI] is the double
    nearest to pi, and [Math.random() * Math.PI * 2] multiplies from the
    left. *)
Definition createBot (rnd : R -> R) (x0 y0 : R) (realm0 : option string)
    (suffix : string) (r_hue r_xp r_angle : R) : Bot :=
  mkBot ("bot-" ++ suffix)%string x0 y0 0 0 (rnd (180 + rnd (r_hue * 60)))
    "Guardian" (rnd (100 + rnd (r_xp * 800)))
    (rnd (rnd (r_angle * rnd PI) * 2)) 0 0 0
    (match realm0 with Some r => r | None => "genesis" end).

(** [shouldBotSing(bot)] and [shouldBotSpeak(bot)], given the draw. *)
Definition shouldBotSing (bot : Bot) (r : R) : bool :=
  Rltb 300 (actionTimer bot) && Rltb r 0.005.

Definition shouldBotSpeak (bot : Bot) (r : R) : bool :=
  Rltb 500 (thinkTimer bot) && Rltb r 0.002.

Definition resetBotActionTimer (bot : Bot) : Bot :=
  mkBot (id bot) (x bot) (y bot) (vx bot) (vy bot) (hue bot) (name bot)
    (xp bot) (moveAngle bot) (timer bot) 0 (thinkTimer bot) (realm bot).

Definition resetBotThinkTimer (bot : Bot) : Bot :=
  mkBot (id bot) (x bot) (y bot) (vx bot) (vy bot) (hue bot) (name bot)
    (xp bot) (moveAngle bot) (timer bot) (actionTimer bot) 0 (realm bot).

(** [array[i]] for a number [i] that is an integer: [undefined] outside the
    array. *)
Definition index {A} (l : list A) (i : Z) : option A :=
  if (i <? 0)%Z then None else nth_error l (Z.to_nat i).

(** [getRandomBotThought()], given the draw: the product is rounded to a
    double before [Math.floor] (here [Int_part]) takes its integer part. *)
Definition getRandomBotThought (rnd : R -> R) (r : R) : option string :=
  index BOT_THOUGHTS (Int_part (rnd (r * INR (length BOT_THOUGHTS)))).

(** What one call of [updateBot] is given: the zero signs, the target and
    the two draws. *)
Record TickInput := mkTickInput {
  tick_zeros : ZeroSigns;
  tick_targetX : option R;
  tick_targetY : option R;
  tick_r1 : R;
  tick_r2 : R
}.

(** [updateBot] called once per element of [inputs], in order. *)
Definition ticks (inputs : list TickInput) (bot : Bot) : Bot :=
  fold_left
    (fun b i => updateBot b (tick_zeros i) (tick_targetX i) (tick_targetY i)
                  (tick_r1 i) (tick_r2 i))
    inputs bot.

End Bot.

(** * Levels and forms *)

Module Constants.

Definition FORMS : list string :=
  ["Spark"; "Ember"; "Flame"; "Prism"; "Nova"; "Celestial"; "Eternal"; "Infinite"].

Definition LEVEL_XP : list Q :=
  [0; 100; 300; 700; 1500; 3000; 6000; 12000; 25000]%Q.

(** The loop of [getLevel] with [i + 1] indices still to visit, from index
    [i] down to 0. *)
Fixpoint getLevel_from (n : nat) (xp : Q) : Z :=
  match n with
  | O => 1
  | S i =>
      if Qle_bool (nth i LEVEL_XP 0%Q) xp then Z.of_nat i + 1
      else getLevel_from i xp
  end.

Definition getLevel (xp : Q) : Z := getLevel_from (length LEVEL_XP) xp.

(** [getForm(level)] for an integer level; [None] is [undefined]. *)
Definition getForm (level : Z) : option string :=
  let i := Z.min (level - 1) (Z.of_nat (length FORMS) - 1) in
  if (i <? 0)%Z then None else nth_error FORMS (Z.to_nat i).

End Constants.

(** * Facts about [JSMap] *)

Module JSMapFacts.
Import JSMap.
Section Facts.
Context {V : Type}.
Implicit Types (m : list (string * V)) (k : string) (v : V).

Lemma get_set_eq k v m : get k (set k v m) = Some v.
Proof.
  induction m as [|[k' v'] m IH]; simpl.
  - now rewrite String.eqb_refl.
  - destruct (String.eqb k k') eqn:E; simpl.
    + now rewrite String.eqb_refl.
    + now rewrite E.
Qed.

Lemma get_set_ne k k' v m : k <> k' -> get k' (set k v m) = get k' m.
Proof.
  intros Hne. induction m as [|[k0 v0] m IH]; simpl.
  - destruct (String.eqb_spec k' k); congruence.
  - destruct (String.eqb_spec k k0) as [->|Hk]; simpl.
    + destruct (String.eqb_spec k' k0); congruence.
    + now rewrite IH.
Qed.

Lemma get_delete_eq k m : get k (delete k m) = None.
Proof.
  induction m as [|[k' v'] m IH]; simpl; [easy|].
  destruct (String.eqb k k') eqn:E; simpl; [easy|]. now rewrite E.
Qed.

Lemma get_delete_ne k k' m : k <> k' -> get k' (delete k m) = get k' m.
Proof.
  intros Hne. induction m as [|[k0 v0] m IH]; simpl; [easy|].
  destruct (String.eqb_spec k k0) as [->|Hk]; simpl.
  - destruct (String.eqb_spec k' k0); congruence.
  - now rewrite IH.
Qed.

Lemma has_true k m : has k m = true <-> exists v, get k m = Some v.
Proof.
  unfold has. destruct (get k m); split; intros H; eauto; try easy.
  now destruct H.
Qed.

Lemma has_false k m : has k m = false <-> get k m = None.
Proof. unfold has. destruct (get k m); split; easy. Qed.

Lemma get_Some_keys k v m : get k m = Some v -> In k (keys m).
Proof.
  induction m as [|[k' v'] m IH]; simpl; [easy|].
  destruct (String.eqb_spec k k') as [->|]; auto.
Qed.

Lemma keys_get k m : In k (keys m) -> exists v, get k m = Some v.
Proof.
  induction m as [|[k' v'] m IH]; simpl; [easy|].
  destruct (String.eqb_spec k k') as [->|Hne]; eauto.
  intros [->|Hin]; [congruence | auto].
Qed.

Lemma has_set_same k v m : has k (set k v m) = true.
Proof. unfold has. now rewrite get_set_eq. Qed.

Lemma has_set_other k k' v m : has k' m = true -> has k' (set k v m) = true.
Proof.
  destruct (String.eqb_spec k k') as [->|Hne]; intros H.
  - apply has_set_same.
  - unfold has in *. now rewrite get_set_ne.
Qed.

Lemma has_delete k k' m : has k' (delete k m) = true -> has k' m = true /\ k <> k'.
Proof.
  unfold has. destruct (String.eqb_spec k k') as [->|Hne].
  - now rewrite get_delete_eq.
  - rewrite get_delete_ne by easy. auto.
Qed.
Lemma get_In_values k v m : get k m = Some v -> In v (values m).
Proof.
  induction m as [|[k' v'] m IH]; simpl; [easy|].
  destruct (String.eqb k k'); [intros [= ->]; auto | auto].
Qed.

Lemma delete_absent k m : get k m = None -> delete k m = m.
Proof.
  induction m as [|[k' v'] m IH]; simpl; [easy|].
  destruct (String.eqb k k'); [discriminate|]. intros H. now rewrite IH.
Qed.
End Facts.
End JSMapFacts.

(** * The registry invariant holds along every schedule *)

Section Registry.
Import JSMap JSMapFacts.
Implicit Types (m : list (string * nat)) (ps : list PeerConn) (w : World).

Lemma RegInv_empty : RegInv [] [].
Proof. split; intros *; [discriminate | now rewrite lookup_nil]. Qed.

Lemma RegInv_register m ps p trs :
  RegInv m ps -> get p m = None ->
  RegInv (set p (length ps) m) (ps ++ [mkPeerConn p Stable false trs]).
Proof.
  intros [Hs Hc] Hnone. split.
  - intros p' h Hget. destruct (String.eqb_spec p p') as [<-|Hne].
    + rewrite get_set_eq in Hget. injection Hget as <-.
      exists (mkPeerConn p Stable false trs). split; [|split; reflexivity].
      rewrite lookup_app_r by lia. now rewrite Nat.sub_diag.
    + rewrite get_set_ne in Hget by easy.
      destruct (Hs _ _ Hget) as (c & Hl & Ho & Hop).
      exists c. split; [|easy]. now apply lookup_app_l_Some.
  - intros h c Hl Hop. apply lookup_app_Some in Hl as [Hl | [Hge Hl]].
    + pose proof (Hc _ _ Hl Hop) as Hg.
      rewrite get_set_ne; [easy|]. intros E. congruence.
    + destruct (h - length ps)%nat as [|k] eqn:E; simpl in Hl; [|discriminate].
      injection Hl as <-. simpl. rewrite get_set_eq. f_equal. lia.
Qed.

Lemma RegInv_close m ps p h :
  RegInv m ps -> get p m = Some h ->
  RegInv (delete p m) (alter close_conn h ps).
Proof.
  intros [Hs Hc] Hget. destruct (Hs _ _ Hget) as (c0 & Hl0 & Ho0 & Hop0). split.
  - intros p' h' Hg'. destruct (String.eqb_spec p p') as [<-|Hne].
    + now rewrite get_delete_eq in Hg'.
    + rewrite get_delete_ne in Hg' by easy.
      destruct (Hs _ _ Hg') as (c & Hl & Ho & Hop).
      exists c. split; [|easy]. rewrite list_lookup_alter_ne; [easy|].
      intros ->. congruence.
  - intros h' c Hl Hop. destruct (decide (h = h')) as [<-|Hne].
    + rewrite list_lookup_alter_eq, Hl0 in Hl. simpl in Hl.
      injection Hl as <-. discriminate.
    + rewrite list_lookup_alter_ne in Hl by easy.
      pose proof (Hc _ _ Hl Hop) as Hg.
      rewrite get_delete_ne; [easy|]. intros E. congruence.
Qed.

Lemma RegInv_restate m ps h c s' r :
  RegInv m ps -> ps !! h = Some c -> is_closed c = false -> s' <> Closed ->
  RegInv m (<[h := mkPeerConn (owner c) s' r (senders c)]> ps).
Proof.
  intros [Hs Hc] Hl Hop Hs'. split.
  - intros p h' Hg. destruct (Hs _ _ Hg) as (c' & Hl' & Ho' & Hop').
    destruct (decide (h = h')) as [<-|Hne].
    + eexists. split.
      * apply list_lookup_insert_eq. now apply lookup_lt_Some in Hl.
      * simpl. split; [congruence|]. unfold is_closed. simpl. now destruct s'.
    + exists c'. now rewrite list_lookup_insert_ne.
  - intros h' c' Hl' Hop'. destruct (decide (h = h')) as [<-|Hne].
    + rewrite list_lookup_insert_eq in Hl' by now apply lookup_lt_Some in Hl.
      injection Hl' as <-. simpl. now apply Hc.
    + rewrite list_lookup_insert_ne in Hl' by easy. now apply Hc.
Qed.

Lemma close_all_lookup hs : forall ps h c,
  close_all hs ps !! h = Some c ->
  exists c0, ps !! h = Some c0 /\ owner c = owner c0 /\
             (is_closed c = false -> is_closed c0 = false /\ ~ In h hs).
Proof.
  induction hs as [|h0 hs IH]; intros ps h c Hl; simpl in *.
  - exists c. tauto.
  - destruct (IH _ _ _ Hl) as (c1 & Hl1 & Ho & Hop).
    destruct (decide (h0 = h)) as [->|Hne].
    + rewrite list_lookup_alter_eq in Hl1.
      destruct (ps !! h) as [c0|] eqn:E; simpl in Hl1; [|discriminate].
      injection Hl1 as <-. exists c0. split; [easy|]. split; [easy|].
      intros Hc. destruct (Hop Hc) as [Hc1 _]. discriminate.
    + rewrite list_lookup_alter_ne in Hl1 by easy.
      exists c1. split; [easy|]. split; [easy|].
      intros Hc. destruct (Hop Hc). split; [easy|]. intros [?|?]; congruence.
Qed.

Lemma close_all_kept hs : forall ps h c,
  ps !! h = Some c ->
  exists c', close_all hs ps !! h = Some c' /\ owner c' = owner c.
Proof.
  induction hs as [|h0 hs IH]; intros ps h c Hl; simpl.
  - eauto.
  - destruct (decide (h0 = h)) as [->|Hne].
    + destruct (IH (alter close_conn h ps) h (close_conn c)) as (c' & ? & ?).
      { now rewrite list_lookup_alter_eq, Hl. }
      eauto.
    + apply IH. now rewrite list_lookup_alter_ne.
Qed.

Lemma RegInv_close_all m ps : RegInv m ps -> RegInv [] (close_all (values m) ps).
Proof.
  intros [Hs Hc]. split; [discriminate|].
  intros h c Hl Hop. exfalso.
  destruct (close_all_lookup _ _ _ _ Hl) as (c0 & Hl0 & _ & Hk).
  destruct (Hk Hop) as [Hop0 Hnin]. apply Hnin.
  eapply get_In_values, Hc; eauto.
Qed.

Lemma owners_kept_refl ps : owners_kept ps ps.
Proof. intros h c ?; eauto. Qed.

Lemma owners_kept_trans ps1 ps2 ps3 :
  owners_kept ps1 ps2 -> owners_kept ps2 ps3 -> owners_kept ps1 ps3.
Proof.
  intros H1 H2 h c Hl. destruct (H1 _ _ Hl) as (c' & Hl' & <-). eauto.
Qed.

Lemma owners_kept_app ps l : owners_kept ps (ps ++ l).
Proof. intros h c Hl. exists c. split; [now apply lookup_app_l_Some | easy]. Qed.

Lemma owners_kept_alter ps h : owners_kept ps (alter close_conn h ps).
Proof.
  intros h' c Hl. destruct (decide (h = h')) as [->|Hne].
  - exists (close_conn c). now rewrite list_lookup_alter_eq, Hl.
  - exists c. now rewrite list_lookup_alter_ne.
Qed.

Lemma owners_kept_insert ps h c s r :
  ps !! h = Some c ->
  owners_kept ps (<[h := mkPeerConn (owner c) s r (senders c)]> ps).
Proof.
  intros Hl h' c' Hl'. destruct (decide (h = h')) as [<-|Hne].
  - eexists. split.
    + apply list_lookup_insert_eq. now apply lookup_lt_Some in Hl.
    + simpl. congruence.
  - exists c'. now rewrite list_lookup_insert_ne.
Qed.

Lemma task_wf_kept ps ps' t : owners_kept ps ps' -> task_wf ps t -> task_wf ps' t.
Proof.
  intros Hk. destruct t; simpl; auto; intros (c & Hl & <-); apply Hk in Hl;
    destruct Hl as (c' & ? & ?); eauto.
Qed.

Lemma tasks_wf_kept ps ps' ts :
  owners_kept ps ps' -> Forall (task_wf ps) ts -> Forall (task_wf ps') ts.
Proof.
  intros Hk H. eapply Forall_impl; [exact H|].
  intros t. now apply task_wf_kept.
Qed.
End Registry.

Section Preservation.
Import JSMap JSMapFacts.
Implicit Types (w : World).

Lemma offers_sent_app tr1 tr2 :
  offers_sent (tr1 ++ tr2) = offers_sent tr1 ++ offers_sent tr2.
Proof.
  induction tr1 as [|e tr1 IH]; simpl; [easy|].
  destruct e; auto. destruct (String.eqb type "offer"); simpl; congruence.
Qed.

Lemma Quiet_refl w : Quiet w w.
Proof. intros H. auto. Qed.

Lemma Quiet_trans w1 w2 w3 : Quiet w1 w2 -> Quiet w2 w3 -> Quiet w1 w3.
Proof.
  intros H12 H23 G1. destruct (H12 G1) as [G2 E2].
  destruct (H23 G2) as [G3 E3]. split; [easy | congruence].
Qed.

Lemma Quiet_intro w w' ts evs :
  RegInv (peers (vc w')) (pcs w') ->
  owners_kept (pcs w) (pcs w') ->
  tasks w' = tasks w ++ ts -> Forall (task_wf (pcs w')) ts ->
  trace w' = trace w ++ evs -> offers_sent evs = [] ->
  Quiet w w'.
Proof.
  intros HR Hk Ht Hts Htr Hev [_ HT]. split; [split; [easy|]|].
  - rewrite Ht. apply Forall_app. split; [|easy].
    eapply tasks_wf_kept; eauto.
  - rewrite Htr, offers_sent_app, Hev. apply app_nil_r.
Qed.

(** A transition that leaves the registry and the connections alone. *)
Lemma Quiet_frame w w' ts evs :
  peers (vc w') = peers (vc w) -> pcs w' = pcs w ->
  tasks w' = tasks w ++ ts -> Forall (task_wf (pcs w)) ts ->
  trace w' = trace w ++ evs -> offers_sent evs = [] ->
  Quiet w w'.
Proof.
  intros Hp Hc Ht Hts Htr Hev G. pose proof G as [HR _]. revert G.
  eapply Quiet_intro; eauto; rewrite ?Hp, ?Hc; auto using owners_kept_refl.
Qed.

Ltac frame :=
  eapply Quiet_frame; simpl;
  first [ reflexivity
        | symmetry; apply app_nil_r
        | rewrite <- ?app_assoc; reflexivity
        | repeat constructor ].

Lemma Quiet_check bins w : Quiet w (check bins w).
Proof.
  unfold check, spawn, emit.
  repeat case_match; try apply Quiet_refl; frame.
Qed.

Lemma Quiet_init_continue h w : Quiet w (fst (init_continue h w)).
Proof.
  unfold init_continue. repeat case_match; simpl; [| frame | frame | frame].
  eapply Quiet_trans; [|apply Quiet_check]. frame.
Qed.

Lemma Quiet_setPTT active w : Quiet w (setPTT active w).
Proof. unfold setPTT. repeat case_match; frame. Qed.

Lemma Quiet_updateSpatialAudio p d m t w : Quiet w (updateSpatialAudio p d m t w).
Proof. unfold updateSpatialAudio. repeat case_match; try apply Quiet_refl; frame. Qed.

Lemma Quiet_ontrack pc stream w : Quiet w (ontrack pc stream w).
Proof.
  unfold ontrack, release_audio. repeat case_match; try apply Quiet_refl; frame.
Qed.

Lemma Quiet_onicecandidate pc cand w : Quiet w (onicecandidate pc cand w).
Proof.
  unfold onicecandidate, send, emit.
  repeat case_match; try apply Quiet_refl; frame.
Qed.

Lemma Quiet_emit_log msg w : Quiet w (emit (ConsoleLog msg) w).
Proof. unfold emit. frame. Qed.

(** Creating and registering a connection for a peer that has none. *)
Lemma Quiet_register p ts w :
  get p (peers (vc w)) = None ->
  Forall (task_wf (pcs (fst (new_pc p w)))) ts ->
  Quiet w (with_tasks (tasks w ++ ts)
             (upd_vc (set_peers (set p (snd (new_pc p w))
                                   (peers (vc (fst (new_pc p w))))))
                (fst (new_pc p w)))).
Proof.
  intros Hnone Hts G. pose proof G as [HR _]. revert G.
  eapply Quiet_intro with (ts := ts) (evs := []); simpl;
    auto using owners_kept_app, RegInv_register.
  symmetry. apply app_nil_r.
Qed.

Lemma Quiet_connectToPeer p w : Quiet w (fst (connectToPeer p w)).
Proof.
  unfold connectToPeer.
  destruct (negb (enabled (vc w)) || has p (peers (vc w))) eqn:E; simpl.
  - apply Quiet_refl.
  - apply orb_false_iff in E as [_ E]. apply has_false in E.
    apply (Quiet_register p [ConnectAwaitCreateOffer p (length (pcs w))] w E).
    repeat constructor. simpl.
    exists (mkPeerConn p Stable false
              match localStream (vc w) with Some hs => hs | None => [] end).
    split; [|reflexivity].
    rewrite lookup_app_r by lia. now rewrite Nat.sub_diag.
Qed.

Lemma Quiet_handleSignal s w : Quiet w (fst (handleSignal s w)).
Proof.
  unfold handleSignal.
  destruct (negb (enabled (vc w))); [apply Quiet_refl|].
  destruct (String.eqb (signalType s) "offer").
  - destruct (get (from s) (peers (vc w))) as [pc|] eqn:E.
    + destruct (data s); simpl; [frame | apply Quiet_refl].
    + destruct (data s); simpl.
      * apply (Quiet_register (from s) [OfferAwaitSetRemote (from s) (length (pcs w))] w E).
        repeat constructor.
      * pose proof (Quiet_register (from s) [] w E) as Hq. simpl in Hq.
        intros G. destruct (Hq ltac:(constructor) G) as [[HR HT] Ho].
        split; [split|]; simpl in *; auto. now rewrite app_nil_r in HT.
  - repeat case_match; simpl; try apply Quiet_refl; frame.
Qed.

Lemma Quiet_disconnectPeer p w : Quiet w (disconnectPeer p w).
Proof.
  unfold disconnectPeer.
  set (w1 := match get p (peers (vc w)) with Some _ => _ | None => _ end).
  assert (H1 : Quiet w w1).
  { subst w1. destruct (get p (peers (vc w))) as [pc|] eqn:E; [|apply Quiet_refl].
    intros G. pose proof G as [HR _]. revert G.
    eapply Quiet_intro with (ts := []) (evs := []); simpl;
      auto using owners_kept_alter, RegInv_close;
      symmetry; apply app_nil_r. }
  eapply Quiet_trans; [exact H1|]. clearbody w1.
  unfold release_audio. repeat case_match; frame.
Qed.

Lemma Quiet_fold {A} (f : World -> A -> World) (l : list A) :
  (forall w a, Quiet w (f w a)) -> forall w, Quiet w (fold_left f l w).
Proof.
  intros Hf. induction l as [|a l IH]; intros w; simpl.
  - apply Quiet_refl.
  - eapply Quiet_trans; [apply Hf | apply IH].
Qed.

Lemma Quiet_updateNearbyPeers ids r w : Quiet w (updateNearbyPeers ids r w).
Proof.
  unfold updateNearbyPeers. destruct (negb (enabled (vc w))); [apply Quiet_refl|].
  eapply Quiet_trans;
    [apply (Quiet_fold connect_if_new) | apply (Quiet_fold (disconnect_if_gone ids))].
  - intros w' p. unfold connect_if_new. repeat case_match; try apply Quiet_refl.
    eapply Quiet_trans; [apply Quiet_emit_log | apply Quiet_connectToPeer].
  - intros w' p. unfold disconnect_if_gone. case_match; try apply Quiet_refl.
    eapply Quiet_trans; [apply Quiet_emit_log | apply Quiet_disconnectPeer].
Qed.

Lemma fold_close_pc hs : forall w,
  fold_left (fun w pc => close_pc pc w) hs w = with_pcs (close_all hs (pcs w)) w.
Proof.
  induction hs as [|h hs IH]; intros w; simpl.
  - now destruct w.
  - now rewrite IH.
Qed.

Lemma fold_release_audio hs : forall w,
  fold_left (fun w a => release_audio a w) hs w =
  with_audios (alter_all release_el hs (audios w)) w.
Proof.
  induction hs as [|h hs IH]; intros w; simpl.
  - now destruct w.
  - now rewrite IH.
Qed.

Lemma Quiet_disable w : Quiet w (disable w).
Proof.
  unfold disable. rewrite fold_close_pc.
  rewrite fold_release_audio.
  intros G. pose proof G as [HR _]. revert G.
  eapply Quiet_intro with (ts := []) (evs := []); simpl;
    destruct (localStream (vc w)); simpl;
    auto using RegInv_close_all;
    try (symmetry; apply app_nil_r);
    intros h c Hl; now apply close_all_kept.
Qed.
End Preservation.

Section Schedules.
Import JSMap JSMapFacts.
Implicit Types (w : World).

Lemma Quiet_Sound w w' : Quiet w w' -> Sound w w'.
Proof.
  intros Hq G. destruct (Hq G) as [G' E]. split; [easy|].
  exists []. rewrite app_nil_r. split; [easy|]. intros p [].
Qed.

Lemma setDescription_Some op ok h w w1 :
  setDescription op ok h w = Some w1 ->
  exists c s' r,
    pcs w !! h = Some c /\ is_closed c = false /\ s' <> Closed /\
    w1 = with_pcs (<[h := mkPeerConn (owner c) s' r (senders c)]> (pcs w)) w.
Proof.
  unfold setDescription. destruct (pcs w !! h) as [c|]; [|discriminate].
  destruct ok; [|discriminate].
  destruct (host_setDescription op (signalingState c)) as [s'|] eqn:E;
    [|discriminate].
  intros [= <-]. exists c, s', (is_remote op || remoteSet c).
  repeat split; auto.
  - unfold is_closed. destruct op, (signalingState c); simpl in E; congruence.
  - destruct op, (signalingState c); simpl in E; congruence.
Qed.

Lemma Quiet_setDescription op ok h w w1 :
  setDescription op ok h w = Some w1 -> Quiet w w1.
Proof.
  intros H. apply setDescription_Some in H as (c & s' & r & Hl & Hop & Hs & ->).
  intros G. pose proof G as [HR _]. revert G.
  eapply Quiet_intro with (ts := []) (evs := []); simpl;
    auto using RegInv_restate, owners_kept_insert;
    symmetry; apply app_nil_r.
Qed.

Lemma Quiet_spawn t w : task_wf (pcs w) t -> Quiet w (spawn t w).
Proof.
  intros Ht. eapply Quiet_frame with (ts := [t]) (evs := []); simpl; auto.
  symmetry. apply app_nil_r.
Qed.

Lemma Quiet_send p type d w : type <> "offer" -> Quiet w (send p type d w).
Proof.
  intros Hne. unfold send. destruct (signalSender (vc w)); [|apply Quiet_refl].
  eapply Quiet_frame with (ts := []) (evs := [Sent p type d]); simpl; auto.
  - symmetry. apply app_nil_r.
  - destruct (String.eqb_spec type "offer"); congruence.
Qed.

(** The continuation of a well-formed task. *)
Lemma continue_Sound t h w :
  task_wf (pcs w) t -> Sound w (fst (continue t h w)).
Proof.
  intros Ht. destruct t; simpl.
  - apply Quiet_Sound, Quiet_init_continue.
  - apply Quiet_Sound. destruct (createOffer_ok _ _ _); simpl;
      [now apply Quiet_spawn | apply Quiet_refl].
  - destruct (setDescription _ _ _ _) as [w1|] eqn:E; simpl;
      [|apply Quiet_Sound, Quiet_refl].
    intros G. destruct (Quiet_setDescription _ _ _ _ _ E G) as [G1 E1].
    pose proof E as E'.
    apply setDescription_Some in E' as (c & s' & r & Hl & Hop & Hs & ->).
    unfold send. simpl. destruct (signalSender (vc w)); simpl.
    + split; [exact G1|]. exists [peerId].
      split; [now rewrite offers_sent_app|].
      intros p [<-|[]]. destruct Ht as (c' & Hl' & Ho).
      assert (c' = c) as -> by congruence.
      exists pc, c. split; [|easy]. destruct G as [[_ Hc] _].
      rewrite <- Ho. now apply Hc.
    + split; [exact G1|]. exists []. rewrite app_nil_r. split; [easy|].
      intros p [].
  - apply Quiet_Sound. destruct (setDescription _ _ _ _) as [w1|] eqn:E; simpl;
      [|apply Quiet_refl].
    eapply Quiet_trans; [eapply Quiet_setDescription; eauto|].
    now apply Quiet_spawn.
  - apply Quiet_Sound. destruct (createAnswer_ok _ _ _); simpl;
      [now apply Quiet_spawn | apply Quiet_refl].
  - apply Quiet_Sound. destruct (setDescription _ _ _ _) as [w1|] eqn:E; simpl;
      [|apply Quiet_refl].
    eapply Quiet_trans; [eapply Quiet_setDescription; eauto|].
    now apply Quiet_send.
  - apply Quiet_Sound. destruct (setDescription _ _ _ _) as [w1|] eqn:E; simpl;
      [|apply Quiet_refl].
    eapply Quiet_setDescription; eauto.
  - apply Quiet_Sound. destruct (addIceCandidate_ok _ _ _); simpl;
      [apply Quiet_refl|].
    eapply Quiet_frame with (ts := []) (evs := [ConsoleWarn _]); simpl; auto.
    symmetry. apply app_nil_r.
  - apply Quiet_Sound, Quiet_check.
Qed.

Lemma step_Sound a w : Sound w (step a w).
Proof.
  destruct a; simpl;
    try (apply Quiet_Sound;
         first [ apply Quiet_setPTT | apply Quiet_connectToPeer
               | apply Quiet_handleSignal | apply Quiet_updateSpatialAudio
               | apply Quiet_disconnectPeer | apply Quiet_updateNearbyPeers
               | apply Quiet_disable | apply Quiet_ontrack
               | apply Quiet_onicecandidate ]).
  1-4: apply Quiet_Sound;
    eapply Quiet_frame with (ts := []) (evs := []); simpl; auto;
    symmetry; apply app_nil_r.
  - apply Quiet_Sound. now apply Quiet_spawn.
  - destruct (tasks w !! i) as [t|] eqn:E; [|apply Quiet_Sound, Quiet_refl].
    intros G. destruct G as [HR HT].
    assert (G0 : Good (with_tasks (base.delete i (tasks w)) w)).
    { split; simpl; [easy | now apply Forall_delete]. }
    assert (Ht : task_wf (pcs (with_tasks (base.delete i (tasks w)) w)) t).
    { simpl. eapply Forall_lookup_1; eauto. }
    apply (continue_Sound t h _ Ht G0).
Qed.

Lemma Good_new_World s : Good (new_World s).
Proof. split; simpl; [apply RegInv_empty | constructor]. Qed.

Lemma Good_run acts : forall w, Good w -> Good (run acts w).
Proof.
  induction acts as [|a acts IH]; intros w G; simpl; [easy|].
  apply IH. now apply step_Sound.
Qed.

Lemma NoDup_all_equal {A} (l : list A) :
  List.NoDup l -> (forall a b, In a l -> In b l -> a = b) -> (length l <= 1)%nat.
Proof.
  intros Hnd Heq. destruct l as [|a [|b l]]; simpl; try lia.
  exfalso. assert (a = b) as -> by (apply Heq; simpl; auto).
  inversion Hnd as [|? ? Hnin _]. apply Hnin. now left.
Qed.

Lemma live_connections_spec p w h :
  In h (live_connections p w) <->
  exists c, pcs w !! h = Some c /\ owner c = p /\ is_closed c = false.
Proof.
  unfold live_connections. rewrite filter_In, in_seq. split.
  - intros [_ H]. destruct (pcs w !! h) as [c|]; [|discriminate].
    apply andb_true_iff in H as [Ho Hc]. exists c.
    apply String.eqb_eq in Ho. apply negb_true_iff in Hc. auto.
  - intros (c & Hl & Ho & Hc). split.
    + apply lookup_lt_Some in Hl. lia.
    + rewrite Hl, Hc. subst p. now rewrite String.eqb_refl.
Qed.

Lemma Good_at_most_one w p :
  Good w ->
  (length (live_connections p w) <= 1)%nat /\
  (forall h, In h (live_connections p w) -> get p (peers (vc w)) = Some h).
Proof.
  intros [[_ Hc] _].
  assert (Hreg : forall h, In h (live_connections p w) ->
                           get p (peers (vc w)) = Some h).
  { intros h Hin. apply live_connections_spec in Hin as (c & Hl & <- & Hop).
    now apply Hc. }
  split; [|exact Hreg].
  apply NoDup_all_equal.
  - unfold live_connections. apply List.NoDup_filter, List.seq_NoDup.
  - intros a b Ha Hb. apply Hreg in Ha, Hb. congruence.
Qed.
End Schedules.

(** * Properties of the voice chat *)

Section Claims.
Import JSMap JSMapFacts.
Implicit Types (w : World).

(** C1.  At most one connection per peer.  Along every schedule of method
    calls, promise settlements and connection events that starts from a
    fresh [VoiceChat], and for every peer id: at most one connection made
    for that peer is open, and it is the one the registry holds.
    [connectToPeer] registers the connection in its synchronous prefix,
    before anything is sent; whenever a later step hands an offer to the
    signal sender, the addressee is registered with an open connection when
    that step begins.  An inbound offer for a registered peer creates no
    connection and leaves the registry as it is. *)
Theorem at_most_one_connection (s : Settings) (acts : list Action) :
  let w := run acts (new_World s) in
  (forall peerId,
      (length (live_connections peerId w) <= 1)%nat /\
      (forall pc, In pc (live_connections peerId w) ->
                  get peerId (peers (vc w)) = Some pc)) /\
  (forall peerId w',
      connectToPeer peerId w = (w', Pending) ->
      get peerId (peers (vc w')) = Some (length (pcs w)) /\
      trace w' = trace w) /\
  (forall a, exists new,
      offers_sent (trace (step a w)) = offers_sent (trace w) ++ new /\
      forall peerId, In peerId new -> registered_open peerId w) /\
  (forall sig pc,
      signalType sig = "offer" ->
      get (from sig) (peers (vc w)) = Some pc ->
      pcs (fst (handleSignal sig w)) = pcs w /\
      peers (vc (fst (handleSignal sig w))) = peers (vc w)).
Proof.
  intros w.
  assert (G : Good w) by apply Good_run, Good_new_World.
  split; [|split; [|split]].
  - intros p. now apply Good_at_most_one.
  - intros p w'. unfold connectToPeer.
    destruct (negb (enabled (vc w)) || has p (peers (vc w))); [discriminate|].
    simpl. intros [= <-]. simpl. split; [apply get_set_eq | reflexivity].
  - intros a. now apply step_Sound.
  - intros sig pc Hty Hget. unfold handleSignal.
    destruct (negb (enabled (vc w))); [easy|].
    rewrite Hty, Hget. simpl. now destruct (data sig).
Qed.

(** *** Proximity sync *)

Lemma fold_left_fix {A B} (f : A -> B -> A) (l : list B) (a : A) :
  (forall b, In b l -> f a b = a) -> fold_left f l a = a.
Proof.
  induction l as [|b l IH]; simpl; [easy|]. intros H.
  rewrite (H b) by auto. apply IH. auto.
Qed.

Lemma Set_has_In p ids : Set_has p ids = true <-> In p ids.
Proof.
  unfold Set_has. rewrite existsb_exists. split.
  - intros (q & Hin & E). apply String.eqb_eq in E. now subst.
  - intros Hin. exists p. now rewrite String.eqb_refl.
Qed.

Lemma peers_disconnectPeer p w :
  peers (vc (disconnectPeer p w)) = delete p (peers (vc w)).
Proof.
  unfold disconnectPeer.
  destruct (get p (peers (vc w))) eqn:E; repeat case_match; simpl;
    auto using eq_sym, delete_absent.
Qed.

Lemma config_disconnectPeer p w :
  enabled (vc (disconnectPeer p w)) = enabled (vc w) /\
  userId (vc (disconnectPeer p w)) = userId (vc w).
Proof. unfold disconnectPeer. repeat case_match; simpl; auto. Qed.

Lemma connect_if_new_spec w p :
  enabled (vc w) = true ->
  let w' := connect_if_new w p in
  enabled (vc w') = true /\ userId (vc w') = userId (vc w) /\
  (forall q, has q (peers (vc w)) = true -> has q (peers (vc w')) = true) /\
  (p <> userId (vc w) -> has p (peers (vc w')) = true).
Proof.
  intros En. unfold connect_if_new.
  destruct (String.eqb_spec p (userId (vc w))) as [->|Hne]; simpl.
  - repeat split; auto; intros H; now destruct H.
  - destruct (has p (peers (vc w))) eqn:Hp; simpl; [now auto|].
    unfold connectToPeer. simpl. rewrite En, Hp. simpl.
    repeat split; auto using has_set_other, has_set_same.
Qed.

Lemma connect_loop_spec ids : forall w,
  enabled (vc w) = true ->
  let w' := fold_left connect_if_new ids w in
  enabled (vc w') = true /\ userId (vc w') = userId (vc w) /\
  (forall q, has q (peers (vc w)) = true -> has q (peers (vc w')) = true) /\
  (forall p, In p ids -> p <> userId (vc w) -> has p (peers (vc w')) = true).
Proof.
  induction ids as [|p ids IH]; intros w En; simpl.
  - repeat split; auto; intros p [].
  - destruct (connect_if_new_spec w p En) as (En1 & U1 & M1 & N1).
    destruct (IH _ En1) as (En2 & U2 & M2 & N2).
    repeat split; auto; [congruence|].
    intros q [<-|Hin] Hne; [auto|]. apply N2; [easy | congruence].
Qed.

Lemma disconnect_if_gone_spec ids w k :
  let w' := disconnect_if_gone ids w k in
  enabled (vc w') = enabled (vc w) /\ userId (vc w') = userId (vc w) /\
  peers (vc w') =
    if Set_has k ids then peers (vc w) else delete k (peers (vc w)).
Proof.
  unfold disconnect_if_gone. destruct (Set_has k ids); simpl; [auto|].
  rewrite peers_disconnectPeer.
  destruct (config_disconnectPeer k
              (emit (ConsoleLog ("Disconnecting voice from " ++ k)) w)).
  auto.
Qed.

Lemma disconnect_loop_spec ids ks : forall w,
  let w' := fold_left (disconnect_if_gone ids) ks w in
  enabled (vc w') = enabled (vc w) /\ userId (vc w') = userId (vc w) /\
  (forall p, In p ids -> has p (peers (vc w)) = true ->
             has p (peers (vc w')) = true) /\
  (forall k, has k (peers (vc w')) = true ->
             has k (peers (vc w)) = true /\ (In k ks -> In k ids)).
Proof.
  induction ks as [|k0 ks IH]; intros w; simpl.
  - repeat split; auto; intros [].
  - destruct (disconnect_if_gone_spec ids w k0) as (En1 & U1 & P1).
    destruct (IH (disconnect_if_gone ids w k0)) as (En2 & U2 & K2 & S2).
    repeat split; try congruence.
    + intros p Hin Hp. apply K2; [easy|]. rewrite P1.
      destruct (Set_has k0 ids) eqn:E; [easy|].
      unfold has in *. rewrite get_delete_ne; [easy|].
      intros ->. apply Set_has_In in Hin. congruence.
    + destruct (S2 _ H) as [Hk _]. rewrite P1 in Hk.
      destruct (Set_has k0 ids); [easy|]. now apply has_delete in Hk.
    + destruct (S2 _ H) as [Hk Hks]. intros [<-|Hin]; [|auto].
      rewrite P1 in Hk. destruct (Set_has k0 ids) eqn:E.
      * now apply Set_has_In.
      * apply has_delete in Hk. now destruct Hk.
Qed.

(** C2.  Proximity sync is idempotent.  Calling [updateNearbyPeers] a
    second time with the same set, with nothing in between, changes
    nothing at all: the registry, the connections, the pending calls and
    the trace are those the first call left.  As each call of
    [connectToPeer] or [disconnectPeer] made by [updateNearbyPeers] is
    announced on the console, an unchanged trace means that the second
    call made none. *)
Theorem updateNearbyPeers_idempotent (ids : list string) (r : R) w :
  updateNearbyPeers ids r (updateNearbyPeers ids r w) =
  updateNearbyPeers ids r w.
Proof.
  unfold updateNearbyPeers at 2.
  destruct (enabled (vc w)) eqn:En; simpl.
  2: { unfold updateNearbyPeers. now rewrite En. }
  set (wc := fold_left connect_if_new ids w).
  set (w1 := fold_left (disconnect_if_gone ids) (keys (peers (vc wc))) wc).
  destruct (connect_loop_spec ids w En) as (Enc & Uc & _ & Nc). fold wc in Enc, Uc, Nc.
  destruct (disconnect_loop_spec ids (keys (peers (vc wc))) wc)
    as (En1 & U1 & K1 & S1). fold w1 in En1, U1, K1, S1.
  unfold updateNearbyPeers. rewrite En1, Enc, En. simpl. fold wc. fold w1.
  assert (E1 : fold_left connect_if_new ids w1 = w1).
  { apply fold_left_fix. intros p Hin. unfold connect_if_new.
    destruct (String.eqb_spec p (userId (vc w1))) as [|Hne]; [easy|].
    rewrite K1; [easy | easy |]. apply Nc; [easy | congruence]. }
  rewrite E1. apply fold_left_fix. intros k Hin.
  unfold disconnect_if_gone.
  assert (Hk : has k (peers (vc w1)) = true).
  { apply has_true. now apply keys_get. }
  destruct (S1 _ Hk) as [Hc Hids].
  assert (In k ids) as Hi.
  { apply Hids. apply has_true in Hc as [v Hv]. eapply get_Some_keys; eauto. }
  apply Set_has_In in Hi. now rewrite Hi.
Qed.

(** *** Signals that arrive late, twice, or for nobody *)

(** C3.  Stale and racing signals.  An [answer] is applied (its
    [setRemoteDescription] is started) for a registered sender whose
    connection is not in the [stable] state, and only then; an answer for a stable
    connection and an answer for an unregistered sender leave the world as it
    is and the call returns normally.  An [ice] envelope whose payload is an
    object does the same when the sender is unregistered.  When
    [addIceCandidate] fails, the failure is logged with [console.warn] and
    nothing else changes; whatever the host answers, the call that awaited it
    returns normally and is never rejected. *)
Theorem handleSignal_stale_signals (sig : Signal) w :
  (signalType sig = "answer" ->
   (forall pc c d,
      enabled (vc w) = true ->
      get (from sig) (peers (vc w)) = Some pc -> pcs w !! pc = Some c ->
      signalingState c <> Stable -> data sig = Some d ->
      handleSignal sig w = (spawn (AnswerAwaitSetRemote pc) w, Pending)) /\
   (forall w', handleSignal sig w = (w', Pending) ->
      exists pc c,
        get (from sig) (peers (vc w)) = Some pc /\ pcs w !! pc = Some c /\
        signalingState c <> Stable /\ w' = spawn (AnswerAwaitSetRemote pc) w) /\
   (forall pc c,
      get (from sig) (peers (vc w)) = Some pc -> pcs w !! pc = Some c ->
      signalingState c = Stable -> handleSignal sig w = (w, Resolved VVoid)) /\
   (get (from sig) (peers (vc w)) = None ->
    handleSignal sig w = (w, Resolved VVoid))) /\
  (signalType sig = "ice" -> is_Some (data sig) ->
   get (from sig) (peers (vc w)) = None ->
   handleSignal sig w = (w, Resolved VVoid)) /\
  (forall pc h,
     addIceCandidate_ok (h_ok h) pc w = false ->
     continue (IceAwaitAdd pc) h w =
     (emit (ConsoleWarn "ICE candidate error:") w, Resolved VVoid)) /\
  (forall pc h, snd (continue (IceAwaitAdd pc) h w) = Resolved VVoid).
Proof.
  split; [|split; [|split]].
  - intros Hty. unfold handleSignal. rewrite Hty. simpl.
    destruct (enabled (vc w)); simpl.
    2: { repeat split; auto; intros; simplify_eq. }
    destruct (get (from sig) (peers (vc w))) as [pc|].
    2: { repeat split; auto; intros; simplify_eq. }
    destruct (pcs w !! pc) as [c|] eqn:Hc.
    2: { repeat split; auto; intros; simplify_eq. }
    split; [|split; [|split; [|discriminate]]].
    + intros pc' c' d _ [= <-]. rewrite Hc. intros [= <-] Hs ->.
      now destruct (signalingState c).
    + intros w' H. exists pc, c.
      destruct (signalingState c), (data sig); try discriminate;
        injection H as <-; repeat split; auto; discriminate.
    + intros pc' c' [= <-]. rewrite Hc. intros [= <-] Hs. now rewrite Hs.
  - intros Hty [d Hd] Hnone. unfold handleSignal. rewrite Hty, Hd, Hnone. simpl.
    destruct (negb (enabled (vc w))); [easy|]. now destruct (candidate d).
  - intros pc h H. simpl. now rewrite H.
  - intros pc h. simpl. now destruct (addIceCandidate_ok _ _ _).
Qed.

(** C10.  A disabled chat ignores every signal: [handleSignal] returns at
    once, with the world exactly as it was (no connection created, nothing
    sent, no map touched, no call left pending). *)
Theorem handleSignal_disabled (sig : Signal) w :
  enabled (vc w) = false -> handleSignal sig w = (w, Resolved VVoid).
Proof. intros H. unfold handleSignal. now rewrite H. Qed.

(** *** Enabling *)

Lemma level_is_Some bins : exists avg, level bins = Some avg.
Proof.
  unfold level. destruct (dataArray bins) as [|b l] eqn:E.
  - apply (f_equal length) in E. unfold dataArray in E.
    rewrite length_resize in E. discriminate.
  - simpl. eauto.
Qed.

(** The outcomes of [init()] that C7 describes as the code has them.  When the
    stream is granted and the audio graph is built, the call resolves to
    [true], the chat is enabled, the stream is held and the VAD loop has its
    next frame pending.  When the request is refused, the call resolves to
    [false] and the only trace of it is one [console.error]: the object, the
    stores and the pending calls are as before (so a disabled chat stays
    disabled, no stream is held because of this call, no frame is pending and
    no second request is made).  Put together: calling [init()] and having
    the request refused leaves the world as it was, but for that one
    [console.error]. *)
Theorem init_reports (h : HostInput) w :
  (h_ok h = true -> h_graph_ok h = true ->
   let w' := fst (continue InitAwaitUserMedia h w) in
   snd (continue InitAwaitUserMedia h w) = Resolved (VBool true) /\
   enabled (vc w') = true /\ is_Some (localStream (vc w')) /\
   tasks w' = tasks w ++ [VadFrame]) /\
  (h_ok h = false ->
   continue InitAwaitUserMedia h w =
   (emit (ConsoleError "Voice init failed:") w, Resolved (VBool false))) /\
  (h_ok h = false ->
   let w' := fst (continue InitAwaitUserMedia h w) in
   vc w' = vc w /\ tracks w' = tracks w /\ tasks w' = tasks w /\
   (enabled (vc w) = false -> enabled (vc w') = false)) /\
  (h_ok h = false ->
   step (Settle (length (tasks w)) h) (step Call_init w) =
   emit (ConsoleError "Voice init failed:") w).
Proof.
  simpl. unfold init_continue. split; [|split; [|split]].
  - intros -> ->. simpl. unfold startVAD, check. simpl.
    destruct (level_is_Some (h_bins h)) as [avg ->].
    repeat split; repeat case_match; simpl; eauto.
  - now intros ->.
  - intros ->. simpl. auto.
  - intros Hno. rewrite lookup_app_r by lia. rewrite Nat.sub_diag. simpl.
    unfold init_continue. rewrite Hno.
    replace (base.delete (length (tasks w)) (tasks w ++ [InitAwaitUserMedia]))
      with (tasks w).
    + now destruct w.
    + induction (tasks w) as [|t ts IH]; simpl; [easy|]. now rewrite <- IH.
Qed.

(** C7.  The failure of [init()] that keeps the microphone.  When the
    stream is granted and building the audio graph then throws, [init()]
    resolves to [false] and reports one [console.error], the chat is no
    more enabled than before and no VAD frame is pending, but the granted
    stream is held: [localStream] is the new stream, and its tracks are in
    the store exactly as the browser granted them, none of them stopped by
    the call.  The context is on the object when its constructor had
    returned. *)
Theorem init_graph_failure (h : HostInput) w :
  h_ok h = true -> h_graph_ok h = false ->
  let w' := fst (continue InitAwaitUserMedia h w) in
  snd (continue InitAwaitUserMedia h w) = Resolved (VBool false) /\
  localStream (vc w') = Some (seq (length (tracks w)) (length (h_tracks h))) /\
  tracks w' = tracks w ++ h_tracks h /\
  (forall i t, h_tracks h !! i = Some t ->
     tracks w' !! (length (tracks w) + i)%nat = Some t) /\
  enabled (vc w') = enabled (vc w) /\
  analyser (vc w') = analyser (vc w) /\
  audioContext (vc w') =
    (if h_context_ok h then Some (mkAudioContext Running)
     else audioContext (vc w)) /\
  tasks w' = tasks w /\
  trace w' = trace w ++ [ConsoleError "Voice init failed:"].
Proof.
  intros Hok Hg. cbn [continue]. unfold init_continue. rewrite Hok, Hg.
  destruct w as [v ts ps au tk tr]. destruct (h_context_ok h); cbn;
    repeat split; auto;
    intros i t Hl; rewrite lookup_app_r by lia;
    now replace (length ts + i - length ts)%nat with i by lia.
Qed.

(** *** Updating every object of a list of handles *)

Lemma alter_all_keep {A} (f : A -> A) (P : A -> Prop) hs :
  (forall a, P a -> P (f a)) ->
  forall l h a, l !! h = Some a -> P a ->
                exists a', alter_all f hs l !! h = Some a' /\ P a'.
Proof.
  intros HP. induction hs as [|h0 hs IH]; intros l h a Hl Ha; simpl; [eauto|].
  destruct (decide (h0 = h)) as [->|Hne].
  - apply (IH _ h (f a)); [|auto]. now rewrite list_lookup_alter_eq, Hl.
  - apply (IH _ h a); [|auto]. now rewrite list_lookup_alter_ne.
Qed.

Lemma alter_all_mark {A} (f : A -> A) (P : A -> Prop) hs :
  (forall a, P (f a)) ->
  forall l h a, In h hs -> l !! h = Some a ->
                exists a', alter_all f hs l !! h = Some a' /\ P a'.
Proof.
  intros HP. induction hs as [|h0 hs IH]; intros l h a Hin Hl; simpl; [easy|].
  destruct (decide (h0 = h)) as [->|Hne].
  - apply (alter_all_keep f P hs (fun a _ => HP a) _ h (f a)); [|auto].
    now rewrite list_lookup_alter_eq, Hl.
  - destruct Hin as [|Hin]; [easy|].
    apply (IH _ h a Hin). now rewrite list_lookup_alter_ne.
Qed.

Lemma alter_all_other {A} (f : A -> A) hs :
  forall (l : list A) h, ~ In h hs -> alter_all f hs l !! h = l !! h.
Proof.
  induction hs as [|h0 hs IH]; intros l h Hnin; [easy|].
  change (alter_all f hs (alter f h0 l) !! h = l !! h).
  rewrite IH by (intros ?; apply Hnin; now right).
  apply list_lookup_alter_ne. intros ->. apply Hnin. now left.
Qed.

(** *** Teardown *)

(** [disable()] in one piece. *)
Lemma disable_eq w :
  disable w =
  mkWorld
    (mkVoiceChat false None (audioContext (vc w)) (analyser (vc w)) [] [] []
       false (isPTTActive (vc w)) (vadThreshold (vc w)) (userId (vc w))
       (signalSender (vc w)) (onSpeakingChange (vc w)) (onVolumeUpdate (vc w))
       (settings (vc w)))
    (match localStream (vc w) with
     | Some hs => stop_tracks hs (tracks w)
     | None => tracks w
     end)
    (close_all (values (peers (vc w))) (pcs w))
    (alter_all release_el (values (audioElements (vc w))) (audios w))
    (tasks w) (trace w).
Proof.
  unfold disable. rewrite fold_close_pc, fold_release_audio.
  destruct w as [v ts ps au tk tr]. destruct v as [? ls ? ? ? ? ? ? ? ? ? ? ? ? ?].
  now destruct ls.
Qed.

(** C4.  What [disable()] leaves behind.  The three maps are empty; every
    connection that was registered is closed; every track of the capture
    stream is stopped and the stream reference is cleared; every playback
    element that was tracked has its source cleared; the chat is disabled
    and not speaking, so the next VAD frame ends the loop without a
    callback.  The analyser and the audio context are left on the object as
    they were. *)
Theorem disable_teardown w :
  let w' := disable w in
  (peers (vc w') = [] /\ gains (vc w') = [] /\ audioElements (vc w') = []) /\
  (forall p pc c, get p (peers (vc w)) = Some pc -> pcs w !! pc = Some c ->
     exists c', pcs w' !! pc = Some c' /\ signalingState c' = Closed) /\
  (localStream (vc w') = None /\
   forall hs h t, localStream (vc w) = Some hs -> In h hs ->
     tracks w !! h = Some t ->
     exists t', tracks w' !! h = Some t' /\ ended t' = true) /\
  (forall p a el, get p (audioElements (vc w)) = Some a ->
     audios w !! a = Some el ->
     exists el', audios w' !! a = Some el' /\ srcObject el' = None) /\
  (enabled (vc w') = false /\ isSpeaking (vc w') = false /\
   forall bins, check bins w' = w') /\
  (audioContext (vc w') = audioContext (vc w) /\
   analyser (vc w') = analyser (vc w)).
Proof.
  intros w'. subst w'. rewrite disable_eq. simpl.
  split; [|split; [|split; [|split; [|split]]]]; auto.
  - intros p pc c Hg Hl.
    assert (Hin : In pc (values (peers (vc w)))) by (eapply get_In_values; eauto).
    apply (alter_all_mark close_conn (fun c => signalingState c = Closed)
             _ (fun _ => eq_refl) _ pc c Hin Hl).
  - split; [reflexivity|].
    intros hs h t -> Hin Hl.
    apply (alter_all_mark stop_track (fun t => ended t = true)
             _ (fun _ => eq_refl) _ h t Hin Hl).
  - intros p a el Hg Hl.
    assert (Hin : In a (values (audioElements (vc w))))
      by (eapply get_In_values; eauto).
    apply (alter_all_mark release_el (fun e => srcObject e = None)
             _ (fun _ => eq_refl) _ a el Hin Hl).
Qed.

(** C4, as written, fails where it says that the analysis path is torn down:
    after [disable()] on a chat that was enabled, the analyser is still on
    the object and the audio context is still there and running. *)
Lemma disable_keeps_analysis_path :
  ~ analysis_torn_down (disable talking_world).
Proof. intros [H|H]; vm_compute in H; discriminate. Qed.

(** *** Push to talk *)

Lemma tracks_check bins w : tracks (check bins w) = tracks w.
Proof. unfold check. now repeat case_match. Qed.

(** C6.  [setPTT(active)] records [active] and, whenever a capture stream is
    held, sets the [enabled] flag of every audio track of that stream to
    [active]; it does so whether or not push-to-talk is the configured mode.
    Tracks that are not audio tracks of the stream keep their state, and
    with no stream held no track changes.  The gate is first set by
    [init()], which leaves every audio track of the granted stream enabled
    exactly when push-to-talk is not configured. *)
Theorem setPTT_mirrors_active (active : bool) w :
  let w' := setPTT active w in
  (forall h i t,
     h_ok h = true -> h_graph_ok h = true ->
     h_tracks h !! i = Some t -> kind t = AudioKind ->
     exists t',
       tracks (fst (init_continue h w)) !! (length (tracks w) + i)%nat = Some t' /\
       track_enabled t' = negb (ptt (settings (vc w)))) /\
  isPTTActive (vc w') = active /\
  (forall hs h t, localStream (vc w) = Some hs -> In h hs ->
     tracks w !! h = Some t -> kind t = AudioKind ->
     exists t', tracks w' !! h = Some t' /\ track_enabled t' = active) /\
  (forall hs h, localStream (vc w) = Some hs ->
     ~ (In h hs /\ is_audio (tracks w) h = true) ->
     tracks w' !! h = tracks w !! h) /\
  (localStream (vc w) = None -> tracks w' = tracks w) /\
  (pcs w' = pcs w /\ peers (vc w') = peers (vc w) /\ trace w' = trace w /\
   tasks w' = tasks w).
Proof.
  intros w'. subst w'. split.
  { intros h i t Hok Hg Hl Hk. unfold init_continue. rewrite Hok, Hg.
    simpl. unfold startVAD. simpl. rewrite tracks_check. simpl.
    assert (Hl' : (tracks w ++ h_tracks h) !! (length (tracks w) + i)%nat = Some t).
    { rewrite lookup_app_r by lia. now replace (_ + i - _)%nat with i by lia. }
    apply (alter_all_mark (gate_track (negb (ptt (settings (vc w)))))
             (fun t => track_enabled t = negb (ptt (settings (vc w))))
             _ (fun _ => eq_refl) _ _ t); [|easy].
    unfold getAudioTracks. apply filter_In. split.
    - apply in_seq. apply lookup_lt_Some in Hl. lia.
    - unfold is_audio. now rewrite Hl', Hk. }
  unfold setPTT. simpl. split; [|split; [|split; [|split]]].
  - now destruct (localStream (vc w)).
  - intros hs h t -> Hin Hl Hk. simpl.
    apply (alter_all_mark (gate_track active) (fun t => track_enabled t = active)
             _ (fun _ => eq_refl) _ h t); [|easy].
    unfold getAudioTracks. apply filter_In. split; [easy|].
    unfold is_audio. now rewrite Hl, Hk.
  - intros hs h -> Hn. simpl. apply alter_all_other.
    unfold getAudioTracks. now rewrite filter_In.
  - now intros ->.
  - now destruct (localStream (vc w)).
Qed.

(** C6, as written, fails where it says that the gate moves only in
    push-to-talk mode: with an open microphone configured, [setPTT(false)]
    switches the capture track off. *)
Lemma setPTT_gates_outside_ptt_mode : ~ gate_only_in_ptt_mode.
Proof.
  intros H. specialize (H false talking_world eq_refl).
  vm_compute in H. discriminate.
Qed.

(** *** Voice activity *)

Lemma byte_to_Q_range b : (0 <= byte_to_Q b <= 255)%Q.
Proof.
  unfold byte_to_Q. split.
  - change 0%Q with (inject_Z 0). rewrite <- Zle_Qle. apply N2Z.is_nonneg.
  - change 255%Q with (inject_Z 255). rewrite <- Zle_Qle.
    pose proof (Byte.to_N_bounded b). lia.
Qed.

Lemma inject_length_S {A} (a : A) (l : list A) :
  (inject_Z (Z.of_nat (length (a :: l))) ==
   inject_Z (Z.of_nat (length l)) + 1)%Q.
Proof.
  simpl length. rewrite Nat2Z.inj_succ. unfold Z.succ.
  now rewrite inject_Z_plus.
Qed.

Lemma inject_length_nonneg {A} (l : list A) :
  (0 <= inject_Z (Z.of_nat (length l)))%Q.
Proof. change 0%Q with (inject_Z 0). rewrite <- Zle_Qle. lia. Qed.

Lemma fold_sum_bound (l : list Q) : forall acc,
  Forall (fun q => 0 <= q <= 255)%Q l ->
  (acc <= fold_left Qplus l acc <=
   acc + 255 * inject_Z (Z.of_nat (length l)))%Q.
Proof.
  induction l as [|q l IH]; intros acc Hl.
  - cbn [fold_left length]. change (inject_Z (Z.of_nat 0)) with 0%Q.
    split; Lqa.lra.
  - inversion Hl as [|? ? Hq Hl']; subst.
    destruct (IH (acc + q)%Q Hl') as [Hlo Hhi].
    pose proof (inject_length_S q l) as E.
    change (fold_left Qplus (q :: l) acc) with (fold_left Qplus l (acc + q)%Q).
    rewrite E. split; Lqa.lra.
Qed.

Lemma level_range bins avg : level bins = Some avg -> (0 <= avg <= 1)%Q.
Proof.
  unfold level. destruct (dataArray bins) as [|b l] eqn:E; [discriminate|].
  cbn [map reduce_add]. intros [= <-].
  assert (Hl : Forall (fun q => 0 <= q <= 255)%Q (map byte_to_Q l)).
  { apply List.Forall_forall. intros q Hq. apply in_map_iff in Hq as (c & <- & _).
    apply byte_to_Q_range. }
  destruct (fold_sum_bound _ (byte_to_Q b) Hl) as [Hlo Hhi].
  rewrite length_map in Hhi.
  pose proof (byte_to_Q_range b) as [Hb0 Hb1].
  pose proof (inject_length_S b l) as En. cbn [length] in En |- *.
  pose proof (inject_length_nonneg l) as Hn.
  set (n := inject_Z (Z.of_nat (S (length l)))) in *.
  set (s := fold_left Qplus (map byte_to_Q l) (byte_to_Q b)) in *.
  assert (Hnpos : (0 < n)%Q) by Lqa.lra.
  split.
  - apply Qle_shift_div_l; [Lqa.lra|]. apply Qle_shift_div_l; [easy|]. Lqa.lra.
  - apply Qle_shift_div_r; [Lqa.lra|]. apply Qle_shift_div_r; [easy|]. Lqa.lra.
Qed.

Lemma Qgtb_spec a b : Qgtb a b = true <-> (b < a)%Q.
Proof.
  unfold Qgtb. rewrite negb_true_iff. split.
  - intros H. apply Qnot_le_lt. intros Hle.
    apply Qle_bool_iff in Hle. congruence.
  - intros H. destruct (Qle_bool a b) eqn:E; [|easy].
    apply Qle_bool_iff in E. Lqa.lra.
Qed.

(** C8.  One frame of the VAD loop, on an enabled chat with its analyser.
    The level is a number in [[0, 1]].  The threshold is
    [vadThreshold * (1 + (1 - s))], where [s] is the configured sensitivity
    when it is set and not zero, and 0.5 when it is not set.  In push-to-talk
    mode [isSpeaking] becomes "the gate is active and the level exceeds half
    the threshold"; otherwise, unless voice-activity detection is switched
    off (then [isSpeaking] keeps its value), it becomes "the level exceeds
    the threshold".  [onSpeakingChange] is called exactly when the new
    [isSpeaking] differs from the value before the frame, [onVolumeUpdate]
    is called with the level on every frame, and the next frame is
    requested. *)
Theorem vad_frame (bins : list byte) w :
  enabled (vc w) = true -> is_Some (analyser (vc w)) ->
  exists avg,
    level bins = Some avg /\ (0 <= avg <= 1)%Q /\
    (forall s, sensitivity (settings (vc w)) = Some s -> ~ (s == 0)%Q ->
       threshold (vc w) = (vadThreshold (vc w) * (1 + (1 - s)))%Q) /\
    (sensitivity (settings (vc w)) = None ->
       threshold (vc w) = (vadThreshold (vc w) * (1 + (1 - 0.5)))%Q) /\
    let speaking := isSpeaking (vc (check bins w)) in
    (ptt (settings (vc w)) = true ->
       (speaking = true <->
        isPTTActive (vc w) = true /\ (threshold (vc w) * 0.5 < avg)%Q)) /\
    (ptt (settings (vc w)) = false -> vad_off (settings (vc w)) = false ->
       (speaking = true <-> (threshold (vc w) < avg)%Q)) /\
    (ptt (settings (vc w)) = false -> vad_off (settings (vc w)) = true ->
       speaking = isSpeaking (vc w)) /\
    trace (check bins w) =
      trace w
      ++ (if negb (Bool.eqb speaking (isSpeaking (vc w)))
             && onSpeakingChange (vc w)
          then [SpeakingChange speaking] else [])
      ++ (if onVolumeUpdate (vc w) then [VolumeUpdate avg] else []) /\
    tasks (check bins w) = tasks w ++ [VadFrame].
Proof.
  intros En [a Ha]. destruct (level_is_Some bins) as [avg Hlev].
  exists avg. split; [easy|]. split; [now apply (level_range bins)|].
  split; [|split].
  - intros s Hs Hnz. unfold threshold, or_default. rewrite Hs.
    destruct (Qeq_bool s 0) eqn:E; [|easy]. now apply Qeq_bool_eq in E.
  - intros Hs. unfold threshold, or_default. now rewrite Hs.
  - assert (Hsp : isSpeaking (vc (check bins w)) = speaking_after (vc w) avg).
    { unfold check. rewrite En, Ha, Hlev. simpl. now repeat case_match. }
    cbv zeta. rewrite Hsp. unfold speaking_after.
    split; [|split; [|split; [|split]]].
    + intros ->. rewrite andb_true_iff, Qgtb_spec. tauto.
    + intros -> ->. simpl. apply Qgtb_spec.
    + now intros -> ->.
    + fold (speaking_after (vc w) avg).
      unfold check. rewrite En, Ha, Hlev. simpl.
      generalize (speaking_after (vc w) avg). intros b.
      destruct (negb (Bool.eqb b (isSpeaking (vc w))) && onSpeakingChange (vc w));
        simpl; destruct (onVolumeUpdate (vc w)); simpl;
        rewrite <- ?app_assoc, ?app_nil_r; reflexivity.
    + unfold check. rewrite En, Ha, Hlev. simpl. now repeat case_match.
Qed.

(** C8, as written, fails in two places.  With voice-activity detection
    switched off and no push-to-talk, a frame at full level leaves
    [isSpeaking] false: the comparison is not made.  And for a sensitivity of
    zero the code uses the default 0.5, so the threshold is 0.03 and not
    0.04. *)
Lemma vad_frame_not_as_described :
  ~ speaking_follows_level /\ ~ threshold_follows_sensitivity.
Proof.
  split; intros H.
  - assert (Hl : level (repeat xff 128) = Some (32640 # 32640)%Q)
      by (vm_compute; reflexivity).
    specialize (H (repeat xff 128) vad_off_world _ eq_refl
                  (ex_intro _ tt eq_refl) eq_refl Hl).
    vm_compute in H. destruct H as [_ H]. specialize (H eq_refl). discriminate.
  - specialize (H (new_VoiceChat (mkSettings false false (Some 0%Q) None))
                  0%Q eq_refl).
    vm_compute in H. discriminate.
Qed.

(** *** Spatial gain *)

Lemma Rpower_1_l y : Rpower 1 y = 1.
Proof. unfold Rpower. rewrite ln_1, Rmult_0_r. apply exp_0. Qed.

Lemma Math_pow_nonneg x y : 0 <= Math_pow x y.
Proof.
  unfold Math_pow. destruct (Rle_lt_dec x 0); [Lra.lra|].
  unfold Rpower. left. apply exp_pos.
Qed.

Lemma Math_pow_mono x1 x2 y :
  0 <= y -> 0 <= x1 <= x2 -> Math_pow x1 y <= Math_pow x2 y.
Proof.
  intros Hy [H0 H12]. unfold Math_pow.
  destruct (Rle_lt_dec x1 0) as [H1|H1], (Rle_lt_dec x2 0) as [H2|H2];
    try Lra.lra.
  - left. apply exp_pos.
  - apply Rle_Rpower_l; [easy | Lra.lra].
Qed.

Lemma Math_pow_ge_1 x y : 0 <= y -> 1 <= x -> 1 <= Math_pow x y.
Proof.
  intros Hy Hx. unfold Math_pow. destruct (Rle_lt_dec x 0); [Lra.lra|].
  rewrite <- (Rpower_1_l y). apply Rle_Rpower_l; [easy | Lra.lra].
Qed.

Lemma masterVolume_cases s :
  (forall v, volume s = Some v -> ~ (v == 0)%Q -> masterVolume s = v) /\
  (volume s = None -> masterVolume s = 0.7%Q).
Proof.
  unfold masterVolume, or_default. split.
  - intros v -> Hv. destruct (Qeq_bool v 0) eqn:E; [|easy].
    now apply Qeq_bool_eq in E.
  - now intros ->.
Qed.

(** Spatial gain away from a master volume of zero (the part of C5 the
    code keeps), for [distance >= 0] and [maxDistance > 0].  With a
    gain node registered for the peer and an audio context present,
    [updateSpatialAudio] schedules on that node a ramp, with time constant
    0.1 from the context's current time, toward
    [max(0, 1 - (distance / maxDistance) ^ 0.8)] times the master factor; the
    master factor is the configured volume when that is set and not zero,
    and 0.7 when none is set.  With a master factor that is not negative the
    target does not increase with the distance, and it is 0 from
    [maxDistance] on.  Without a gain node for the peer, or without an audio
    context, the call changes nothing. *)
Theorem updateSpatialAudio_volume (peerId : string) (distance maxDistance now : R) w :
  (forall g c,
     get peerId (gains (vc w)) = Some g -> audioContext (vc w) = Some c ->
     0 <= distance -> 0 < maxDistance ->
     get peerId (gains (vc (updateSpatialAudio peerId distance maxDistance now w)))
     = Some (mkGainNode (gain_value g)
               (Some (Rmax 0 (1 - Math_pow (distance / maxDistance) 0.8)
                      * Q2R (masterVolume (settings (vc w))), now, 0.1)))) /\
  ((forall v, volume (settings (vc w)) = Some v -> ~ (v == 0)%Q ->
      masterVolume (settings (vc w)) = v) /\
   (volume (settings (vc w)) = None ->
      masterVolume (settings (vc w)) = 0.7%Q)) /\
  (forall d1 d2,
     0 < maxDistance -> 0 <= d1 <= d2 ->
     (0 <= masterVolume (settings (vc w)))%Q ->
     spatialVolume (settings (vc w)) d2 maxDistance
     <= spatialVolume (settings (vc w)) d1 maxDistance) /\
  (0 < maxDistance -> maxDistance <= distance ->
   spatialVolume (settings (vc w)) distance maxDistance = 0) /\
  (get peerId (gains (vc w)) = None \/ audioContext (vc w) = None ->
   updateSpatialAudio peerId distance maxDistance now w = w).
Proof.
  split; [|split; [|split; [|split]]].
  - intros g c Hg Hc _ _. unfold updateSpatialAudio. rewrite Hg, Hc. simpl.
    now rewrite get_set_eq.
  - apply masterVolume_cases.
  - intros d1 d2 Hm [H0 H12] Hv. unfold spatialVolume.
    apply Qle_Rle in Hv. change (Q2R 0) with (0 * / 1) in Hv.
    apply Rmult_le_compat_r; [Lra.lra|].
    apply Rle_max_compat_l.
    assert (Math_pow (d1 / maxDistance) 0.8 <= Math_pow (d2 / maxDistance) 0.8).
    { apply Math_pow_mono; [Lra.lra|]. split.
      - apply Rmult_le_pos; [easy|]. left. now apply Rinv_0_lt_compat.
      - apply Rmult_le_compat_r; [|easy]. left. now apply Rinv_0_lt_compat. }
    Lra.lra.
  - intros Hm Hd. unfold spatialVolume.
    assert (1 <= Math_pow (distance / maxDistance) 0.8).
    { apply Math_pow_ge_1; [Lra.lra|].
      apply (Rmult_le_reg_r maxDistance); [easy|].
      unfold Rdiv. rewrite Rmult_assoc, Rinv_l by Lra.lra. Lra.lra. }
    rewrite Rmax_left by Lra.lra. apply Rmult_0_l.
  - intros [H|H]; unfold updateSpatialAudio; rewrite H; [easy|].
    now destruct (get peerId (gains (vc w))).
Qed.

(** The description of C5 fails for a master volume of zero: the code then
    uses the default 0.7, so a peer at distance zero is played at 0.7 and not
    muted. *)
Lemma volume_skips_zero_master : ~ volume_scales_with_master.
Proof.
  intros H.
  specialize (H (mkSettings false false None (Some 0%Q)) 0%Q 0 1 eq_refl).
  unfold spatialVolume, masterVolume, or_default, Math_pow in H. simpl in H.
  replace (0 / 1) with 0 in H by Lra.lra.
  destruct (Rle_lt_dec 0 0) as [_|Hlt]; [|Lra.lra].
  rewrite Rmax_right in H by Lra.lra.
  unfold Q2R in H. simpl in H. Lra.lra.
Qed.

(** C5.  A master volume of zero does not mute.  With the volume setting
    at 0, a gain node registered for the peer and an audio context present,
    [updateSpatialAudio] for a peer at distance 0 ramps that peer's gain
    toward 0.7, the default of [settings.volume || 0.7], where the falloff
    times the master volume setting is 0. *)
Theorem updateSpatialAudio_zero_master (peerId : string) (maxDistance now : R)
    w (g : GainNode) (c : AudioContext) (v : Q) :
  get peerId (gains (vc w)) = Some g -> audioContext (vc w) = Some c ->
  volume (settings (vc w)) = Some v -> (v == 0)%Q -> 0 < maxDistance ->
  get peerId (gains (vc (updateSpatialAudio peerId 0 maxDistance now w))) =
    Some (mkGainNode (gain_value g) (Some (0.7, now, 0.1))) /\
  Rmax 0 (1 - Math_pow (0 / maxDistance) 0.8) * Q2R v = 0.
Proof.
  intros Hg Hc Hv Hz Hm.
  assert (Hfall : Rmax 0 (1 - Math_pow (0 / maxDistance) 0.8) = 1).
  { unfold Math_pow. replace (0 / maxDistance) with 0 by (unfold Rdiv; ring).
    destruct (Rle_lt_dec 0 0) as [_|Hlt]; [|Lra.lra].
    rewrite Rmax_right by Lra.lra. Lra.lra. }
  split.
  - unfold updateSpatialAudio. rewrite Hg, Hc. cbn -[get set].
    rewrite get_set_eq. unfold spatialVolume, masterVolume, or_default.
    rewrite Hfall, Hv. apply Qeq_bool_iff in Hz. rewrite Hz.
    assert (E : 1 * Q2R 0.7%Q = 0.7) by (unfold Q2R; cbn; Lra.lra).
    now rewrite E.
  - rewrite Hfall. apply Qeq_eqR in Hz. rewrite Hz. unfold Q2R. cbn. Lra.lra.
Qed.
(** *** The properties at work on sample worlds *)

Lemma at_most_one_connection_witness :
  (length (live_connections "bob" talking_world) <= 1)%nat /\
  get "bob" (peers (vc talking_world)) = Some 0%nat.
Proof.
  pose proof (at_most_one_connection open_mic
                [Call_setSignalSender; Call_init; Settle 0 granted;
                 Call_connectToPeer "bob"; Fire_track 0 7]) as H.
  cbv zeta in H. destruct H as [H _]. destruct (H "bob") as [Hlen Hreg].
  split; [exact Hlen|]. apply Hreg. vm_compute. auto.
Defined.

Lemma handleSignal_stale_signals_witness :
  handleSignal late_answer talking_world = (talking_world, Resolved VVoid) /\
  handleSignal stray_candidate talking_world = (talking_world, Resolved VVoid).
Proof.
  split.
  - destruct (handleSignal_stale_signals late_answer talking_world)
      as [H _].
    destruct (H eq_refl) as (_ & _ & Hstable & _).
    apply (Hstable 0%nat (mkPeerConn "bob" Stable false [0%nat]));
      reflexivity.
  - destruct (handleSignal_stale_signals stray_candidate talking_world)
      as (_ & H & _).
    apply H; [reflexivity | eexists; reflexivity | reflexivity].
Defined.

Lemma disable_teardown_witness :
  peers (vc (disable talking_world)) = [] /\
  exists c, pcs (disable talking_world) !! 0%nat = Some c /\
            signalingState c = Closed.
Proof.
  pose proof (disable_teardown talking_world) as H. cbv zeta in H.
  destruct H as ((Hp & _) & Hc & _). split; [exact Hp|].
  apply (Hc "bob" 0%nat (mkPeerConn "bob" Stable false [0%nat])); reflexivity.
Defined.

Lemma updateSpatialAudio_volume_witness :
  spatialVolume (settings (vc talking_world)) 500 500 = 0 /\
  spatialVolume (settings (vc talking_world)) 200 500
  <= spatialVolume (settings (vc talking_world)) 100 500.
Proof.
  destruct (updateSpatialAudio_volume "bob" 500 500 0 talking_world)
    as (_ & _ & Hmono & Hzero & _).
  split.
  - apply Hzero; Lra.lra.
  - apply Hmono; [Lra.lra | Lra.lra | vm_compute; discriminate].
Defined.

Lemma setPTT_mirrors_active_witness :
  exists t, tracks (setPTT false talking_world) !! 0%nat = Some t /\
            track_enabled t = false.
Proof.
  pose proof (setPTT_mirrors_active false talking_world) as H. cbv zeta in H.
  destruct H as (_ & _ & H & _).
  apply (H [0%nat] 0%nat (mkTrack AudioKind true false));
    [reflexivity | now left | reflexivity | reflexivity].
Defined.

Lemma init_graph_failure_witness :
  localStream (vc (fst (continue InitAwaitUserMedia granted_without_graph
                          (new_World open_mic)))) = Some [0%nat] /\
  tracks (fst (continue InitAwaitUserMedia granted_without_graph
                 (new_World open_mic))) = [mkTrack AudioKind true false].
Proof.
  pose proof (init_graph_failure granted_without_graph (new_World open_mic)
                eq_refl eq_refl) as H.
  cbv zeta in H. destruct H as (_ & Hs & Ht & _). split; [exact Hs | exact Ht].
Defined.

Lemma updateSpatialAudio_zero_master_witness :
  get "bob" (gains (vc (updateSpatialAudio "bob" 0 500 0 muted_world))) =
  Some (mkGainNode 1 (Some (0.7, 0, 0.1))).
Proof.
  assert (Hg : get "bob" (gains (vc muted_world)) = Some (mkGainNode 1 None))
    by reflexivity.
  assert (Hc : audioContext (vc muted_world) = Some (mkAudioContext Running))
    by reflexivity.
  assert (Hv : volume (settings (vc muted_world)) = Some 0%Q) by reflexivity.
  assert (Hm : 0 < 500) by Lra.lra.
  destruct (updateSpatialAudio_zero_master "bob" 500 0 muted_world _ _ _
              Hg Hc Hv (Qeq_refl 0) Hm) as [H _].
  exact H.
Defined.

Lemma init_reports_witness :
  continue InitAwaitUserMedia denied (new_World open_mic) =
  (emit (ConsoleError "Voice init failed:") (new_World open_mic),
   Resolved (VBool false)).
Proof.
  destruct (init_reports denied (new_World open_mic)) as (_ & H & _ & _).
  apply H. reflexivity.
Defined.

Lemma vad_frame_witness :
  exists avg, level (repeat "009"%byte 128) = Some avg /\ (0 <= avg <= 1)%Q.
Proof.
  destruct (vad_frame (repeat "009"%byte 128) talking_world)
    as (avg & Hlev & Hrange & _).
  - reflexivity.
  - eexists. reflexivity.
  - exists avg. split; assumption.
Defined.

Lemma handleSignal_disabled_witness :
  handleSignal late_answer (new_World open_mic) =
  (new_World open_mic, Resolved VVoid).
Proof. apply handleSignal_disabled. reflexivity. Defined.
End Claims.

(** * Properties of the guardian update *)

Section BotClaims.
Import Bot.

Lemma Rltb_true a b : Rltb a b = true <-> a < b.
Proof. unfold Rltb. destruct (Rlt_dec a b); split; easy. Qed.

Lemma Rltb_false a b : Rltb a b = false <-> b <= a.
Proof.
  unfold Rltb. destruct (Rlt_dec a b); split; try easy; intros; Lra.lra.
Qed.

Lemma Math_hypot_3_4 : Math_hypot 3 4 = 5.
Proof.
  unfold Math_hypot. replace (3 * 3 + 4 * 4) with (5 * 5) by Lra.lra.
  apply sqrt_square. Lra.lra.
Qed.

Lemma Math_hypot_1500_0 : Math_hypot 1500 0 = 1500.
Proof.
  unfold Math_hypot. replace (1500 * 1500 + 0 * 0) with (1500 * 1500) by Lra.lra.
  apply sqrt_square. Lra.lra.
Qed.

Lemma angleToCenter_cases (bot : Bot) (z : ZeroSigns) :
  (x bot < 0 -> angleToCenter bot z = atan (- y bot / - x bot)) /\
  (0 < x bot -> y bot < 0 -> angleToCenter bot z = atan (- y bot / - x bot) + PI) /\
  (0 < x bot -> 0 < y bot -> angleToCenter bot z = atan (- y bot / - x bot) - PI) /\
  (0 < x bot -> y bot = 0 ->
   angleToCenter bot z = if y_neg0 z then PI else - PI).
Proof.
  unfold angleToCenter, Math_atan2, opp_neg0. repeat split.
  - intros Hx. destruct (Rlt_dec 0 (- x bot)); [easy | Lra.lra].
  - intros Hx Hy. destruct (Rlt_dec 0 (- x bot)); [Lra.lra|].
    destruct (Rlt_dec (- x bot) 0); [|Lra.lra].
    destruct (Rlt_dec 0 (- y bot)); [easy | Lra.lra].
  - intros Hx Hy. destruct (Rlt_dec 0 (- x bot)); [Lra.lra|].
    destruct (Rlt_dec (- x bot) 0); [|Lra.lra].
    destruct (Rlt_dec 0 (- y bot)); [Lra.lra|].
    destruct (Rlt_dec (- y bot) 0); [easy | Lra.lra].
  - intros Hx Hy. destruct (Rlt_dec 0 (- x bot)); [Lra.lra|].
    destruct (Rlt_dec (- x bot) 0); [|Lra.lra].
    destruct (Rlt_dec 0 (- y bot)); [Lra.lra|].
    destruct (Rlt_dec (- y bot) 0); [Lra.lra|].
    now destruct (y_neg0 z).
Qed.

(** C9.  One tick of a guardian, given the two numbers [Math.random()]
    returns.  The heading is first turned by [(r2 - 0.5) * 2] when [r1] is
    below 0.02; then pulled toward the target (weights 0.95 and 0.05) when a
    target is given at a distance strictly between 100 and 400; then pulled
    toward the world centre (weights 0.9 and 0.1) when the bot is farther
    than the campfire radius from the centre, whether or not the target
    pulled; otherwise it is kept.  The angle toward the centre is the
    arctangent of [y / x], moved by [pi] on the side where [x] is positive;
    for a bot on the positive x axis it is [- pi] when its [y] is the
    positive zero and [pi] when it is the negative zero.  The velocity gains
    0.2 along the new heading and is damped by 0.94, the position moves by
    the new velocity, and the three timers advance by one. *)
Theorem updateBot_tick (bot : Bot) (z : ZeroSigns) (targetX targetY : option R)
    (r1 r2 : R) :
  let bot' := updateBot bot z targetX targetY r1 r2 in
  let turned := jitter (moveAngle bot) r1 r2 in
  let pulled := toward_target bot z targetX targetY turned in
  (vx bot' = (vx bot + cos (moveAngle bot') * 0.2) * 0.94 /\
   vy bot' = (vy bot + sin (moveAngle bot') * 0.2) * 0.94 /\
   x bot' = x bot + vx bot' /\ y bot' = y bot + vy bot') /\
  ((r1 < 0.02 -> turned = moveAngle bot + (r2 - 0.5) * 2) /\
   (0.02 <= r1 -> turned = moveAngle bot)) /\
  ((forall tx ty, targetX = Some tx -> targetY = Some ty ->
      100 < Math_hypot (x bot - tx) (y bot - ty) < 400 ->
      pulled = turned * 0.95 + angleToTarget bot z tx ty * 0.05) /\
   (forall tx ty, targetX = Some tx -> targetY = Some ty ->
      ~ 100 < Math_hypot (x bot - tx) (y bot - ty) < 400 -> pulled = turned) /\
   (targetX = None \/ targetY = None -> pulled = turned)) /\
  ((CAMPFIRE_RADIUS < Math_hypot (x bot) (y bot) ->
      moveAngle bot' = pulled * 0.9 + angleToCenter bot z * 0.1) /\
   (Math_hypot (x bot) (y bot) <= CAMPFIRE_RADIUS -> moveAngle bot' = pulled)) /\
  ((x bot < 0 -> angleToCenter bot z = atan (- y bot / - x bot)) /\
   (0 < x bot -> y bot < 0 ->
      angleToCenter bot z = atan (- y bot / - x bot) + PI) /\
   (0 < x bot -> 0 < y bot ->
      angleToCenter bot z = atan (- y bot / - x bot) - PI) /\
   (0 < x bot -> y bot = 0 ->
      angleToCenter bot z = if y_neg0 z then PI else - PI)) /\
  (timer bot' = timer bot + 1 /\ actionTimer bot' = actionTimer bot + 1 /\
   thinkTimer bot' = thinkTimer bot + 1).
Proof.
  cbv zeta. split; [|split; [|split; [|split; [|split]]]].
  - simpl. auto.
  - unfold jitter. split; intros H.
    + apply Rltb_true in H. now rewrite H.
    + apply Rltb_false in H. now rewrite H.
  - unfold toward_target. split; [|split].
    + intros tx ty -> -> [Hlo Hhi].
      apply Rltb_true in Hlo, Hhi. now rewrite Hlo, Hhi.
    + intros tx ty -> -> Hn.
      destruct (Rltb (Math_hypot (x bot - tx) (y bot - ty)) 400) eqn:E1;
        [|easy].
      destruct (Rltb 100 (Math_hypot (x bot - tx) (y bot - ty))) eqn:E2;
        [|easy].
      apply Rltb_true in E1, E2. tauto.
    + intros [-> | ->]; [easy|]. now destruct targetX.
  - simpl. unfold toward_center. split; intros H.
    + apply Rltb_true in H. now rewrite H.
    + apply Rltb_false in H. now rewrite H.
  - apply angleToCenter_cases.
  - simpl. auto.
Qed.

(** C9, as written, fails twice over.  A bot that rests inside the campfire
    radius with no target keeps its heading, where the description has it
    turn toward the centre; and the result depends on what [Math.random()]
    returns, so it is not a function of the bot and the target alone. *)
Lemma updateBot_not_as_described :
  ~ described_update /\
  updateBot resting_bot positive_zeros None None 0.5 0
  <> updateBot resting_bot positive_zeros None None 0.01 0.75.
Proof.
  assert (Hj : jitter 0 0.5 0 = 0).
  { unfold jitter. replace (Rltb 0.5 0.02) with false; [easy|].
    symmetry. apply Rltb_false. Lra.lra. }
  assert (Hc : forall a, toward_center resting_bot positive_zeros a = a).
  { intros a. unfold toward_center. simpl. rewrite Math_hypot_3_4.
    replace (Rltb CAMPFIRE_RADIUS 5) with false; [easy|].
    symmetry. apply Rltb_false. unfold CAMPFIRE_RADIUS. Lra.lra. }
  split.
  - intros H. specialize (H resting_bot positive_zeros None None 0.5 0).
    unfold updateBot in H. simpl in H. rewrite Hj, Hc in H.
    destruct (angleToCenter_cases resting_bot positive_zeros)
      as (_ & _ & Hq & _).
    rewrite Hq in H by (simpl; Lra.lra). simpl in H.
    pose proof (atan_bound (- (4) / - (3))) as [_ Hb].
    pose proof PI_RGT_0. Lra.lra.
  - intros H. apply (f_equal moveAngle) in H.
    unfold updateBot in H. simpl in H. rewrite Hj, !Hc in H.
    unfold jitter in H. replace (Rltb 0.01 0.02) with true in H.
    + Lra.lra.
    + symmetry. apply Rltb_true. Lra.lra.
Qed.

Lemma updateBot_tick_witness :
  moveAngle (updateBot east_bot positive_zeros None None 0.5 0)
  = 0 * 0.9 + - PI * 0.1.
Proof.
  pose proof (updateBot_tick east_bot positive_zeros None None 0.5 0) as H.
  cbv zeta in H.
  destruct H as (_ & (_ & Hkeep) & (_ & _ & Hnone) & (Hout & _) & (_ & _ & _ & Hax) & _).
  rewrite Hout.
  - rewrite Hnone by now left. rewrite Hkeep by Lra.lra.
    rewrite Hax; [reflexivity | simpl; Lra.lra | reflexivity].
  - simpl. rewrite Math_hypot_1500_0. unfold CAMPFIRE_RADIUS. Lra.lra.
Defined.
End BotClaims.

(** * More about the voice chat *)

Section Disconnecting.
Import JSMap JSMapFacts.
Implicit Types (w : World).

(** [disconnectPeer] in one piece. *)
Lemma disconnectPeer_eq p w :
  disconnectPeer p w =
  mkWorld
    (mkVoiceChat (enabled (vc w)) (localStream (vc w)) (audioContext (vc w))
       (analyser (vc w)) (delete p (peers (vc w))) (delete p (gains (vc w)))
       (delete p (audioElements (vc w))) (isSpeaking (vc w))
       (isPTTActive (vc w)) (vadThreshold (vc w)) (userId (vc w))
       (signalSender (vc w)) (onSpeakingChange (vc w)) (onVolumeUpdate (vc w))
       (settings (vc w)))
    (tracks w)
    (match get p (peers (vc w)) with
     | Some pc => alter close_conn pc (pcs w)
     | None => pcs w
     end)
    (match get p (audioElements (vc w)) with
     | Some a => alter release_el a (audios w)
     | None => audios w
     end)
    (tasks w) (trace w).
Proof.
  unfold disconnectPeer. destruct w as [v ts ps au tk tr].
  destruct v as [? ? ? ? pe ga ae ? ? ? ? ? ? ? ?]. simpl.
  destruct (get p pe) as [pc|] eqn:Ep; simpl;
    destruct (get p ae) as [a|] eqn:Ea; simpl;
    rewrite ?(delete_absent _ _ Ep), ?(delete_absent _ _ Ea); reflexivity.
Qed.

(** X1.  [disconnectPeer] is safe on a peer the chat does not know: with no
    entry for the peer in any of the three maps, the call changes nothing. *)
Theorem disconnectPeer_unknown p w :
  get p (peers (vc w)) = None -> get p (gains (vc w)) = None ->
  get p (audioElements (vc w)) = None ->
  disconnectPeer p w = w.
Proof.
  intros Hp Hg Ha. rewrite disconnectPeer_eq, Hp, Ha.
  rewrite !delete_absent by assumption.
  destruct w as [v ? ? ? ? ?]. now destruct v.
Qed.

Lemma disconnectPeer_unknown_witness :
  disconnectPeer "carol" talking_world = talking_world.
Proof. apply disconnectPeer_unknown; reflexivity. Defined.

(** X2.  [disconnectPeer(p)] removes the peer and only the peer.  Afterwards
    [p] has no entry in the registry, the gains or the playback elements;
    its connection is closed and its playback element has no source; the
    entries of every other peer in the three maps are what they were; and
    nothing is sent, logged or left pending. *)
Theorem disconnectPeer_removes p w :
  let w' := disconnectPeer p w in
  (get p (peers (vc w')) = None /\ get p (gains (vc w')) = None /\
   get p (audioElements (vc w')) = None) /\
  (forall pc c, get p (peers (vc w)) = Some pc -> pcs w !! pc = Some c ->
     exists c', pcs w' !! pc = Some c' /\ signalingState c' = Closed) /\
  (forall a el, get p (audioElements (vc w)) = Some a -> audios w !! a = Some el ->
     exists el', audios w' !! a = Some el' /\ srcObject el' = None) /\
  (forall q, q <> p ->
     get q (peers (vc w')) = get q (peers (vc w)) /\
     get q (gains (vc w')) = get q (gains (vc w)) /\
     get q (audioElements (vc w')) = get q (audioElements (vc w))) /\
  (trace w' = trace w /\ tasks w' = tasks w /\ tracks w' = tracks w).
Proof.
  intros w'. subst w'. rewrite disconnectPeer_eq. simpl.
  split; [|split; [|split; [|split]]]; auto.
  - auto using get_delete_eq.
  - intros pc c -> Hl. exists (close_conn c).
    now rewrite list_lookup_alter_eq, Hl.
  - intros a el -> Hl. exists (release_el el).
    now rewrite list_lookup_alter_eq, Hl.
  - intros q Hq. rewrite !get_delete_ne by congruence. auto.
Qed.

Lemma disconnectPeer_removes_witness :
  get "bob" (peers (vc (disconnectPeer "bob" talking_world))) = None /\
  exists c, pcs (disconnectPeer "bob" talking_world) !! 0%nat = Some c /\
            signalingState c = Closed.
Proof.
  pose proof (disconnectPeer_removes "bob" talking_world) as H. cbv zeta in H.
  destruct H as ((Hp & _) & Hc & _). split; [exact Hp|].
  apply (Hc 0%nat (mkPeerConn "bob" Stable false [0%nat])); reflexivity.
Defined.

(** X3.  A negotiation cut short by [disconnectPeer] stays cut.  Once the
    peer is disconnected, an answer from it, and a candidate from it in an
    object payload, are dropped with the world unchanged; and the pending
    steps of a [connectToPeer] for the closed connection are rejected
    without sending the offer, whatever the host reports. *)
Theorem disconnected_peer_stays_out p w :
  let w' := disconnectPeer p w in
  (forall sig, from sig = p ->
     signalType sig = "answer" \/ (signalType sig = "ice" /\ is_Some (data sig)) ->
     handleSignal sig w' = (w', Resolved VVoid)) /\
  (forall pc h offer, get p (peers (vc w)) = Some pc ->
     continue (ConnectAwaitCreateOffer p pc) h w' = (w', Rejected) /\
     continue (ConnectAwaitSetLocal p pc offer) h w' = (w', Rejected)).
Proof.
  intros w'. split.
  - intros sig Hf Hty.
    assert (Hnone : get (from sig) (peers (vc w')) = None).
    { subst w'. rewrite Hf, disconnectPeer_eq. simpl. apply get_delete_eq. }
    unfold handleSignal. destruct (negb (enabled (vc w'))); [easy|].
    destruct Hty as [-> | [-> [d ->]]]; simpl; rewrite Hnone; [easy|].
    now destruct (candidate d).
  - intros pc h offer Hp. subst w'. rewrite disconnectPeer_eq, Hp. simpl.
    unfold createOffer_ok, setDescription. simpl.
    rewrite list_lookup_alter_eq.
    destruct (pcs w !! pc) as [c|]; simpl; [|easy].
    rewrite andb_false_r. now destruct (h_ok h).
Qed.

Lemma disconnected_peer_stays_out_witness :
  handleSignal late_answer (disconnectPeer "bob" talking_world) =
  (disconnectPeer "bob" talking_world, Resolved VVoid) /\
  continue (ConnectAwaitCreateOffer "bob" 0) (fulfilled "v=0")
    (disconnectPeer "bob" talking_world) =
  (disconnectPeer "bob" talking_world, Rejected).
Proof.
  pose proof (disconnected_peer_stays_out "bob" talking_world) as H.
  cbv zeta in H. destruct H as [Hs Hc]. split.
  - apply Hs; [reflexivity | now left].
  - assert (Hreg : get "bob" (peers (vc talking_world)) = Some 0%nat)
      by reflexivity.
    destruct (Hc 0%nat (fulfilled "v=0") "" Hreg) as [H1 _]. exact H1.
Defined.

(** X4.  Asking twice connects once.  A second [connectToPeer] for the same
    peer, made before the first has finished, resolves to [null] and changes
    nothing: no second connection, no second pending offer. *)
Theorem connectToPeer_twice p w :
  connectToPeer p (fst (connectToPeer p w)) =
  (fst (connectToPeer p w), Resolved VNull).
Proof.
  unfold connectToPeer at 2 3.
  destruct (negb (enabled (vc w)) || has p (peers (vc w))) eqn:E; simpl.
  - unfold connectToPeer. now rewrite E.
  - unfold connectToPeer. simpl. rewrite has_set_same. now rewrite orb_true_r.
Qed.
End Disconnecting.

Section Proximity.
Import JSMap JSMapFacts.
Implicit Types (w : World).

Lemma has_set_inv {V} (p q : string) (v : V) (m : list (string * V)) :
  has q (set p v m) = true -> q = p \/ has q m = true.
Proof.
  destruct (String.eqb_spec p q) as [->|Hne]; [now left|].
  unfold has. rewrite get_set_ne by easy. now right.
Qed.

Lemma connect_if_new_only w p q :
  has q (peers (vc (connect_if_new w p))) = true ->
  has q (peers (vc w)) = true \/ (q = p /\ p <> userId (vc w)).
Proof.
  unfold connect_if_new.
  destruct (String.eqb_spec p (userId (vc w))) as [|Hne]; [now left|].
  destruct (has p (peers (vc w))) eqn:Hp; simpl; [now left|].
  unfold connectToPeer. simpl. rewrite Hp.
  destruct (negb (enabled (vc w))); simpl; [now left|].
  intros H. apply has_set_inv in H as [->|H]; auto.
Qed.

Lemma connect_loop_only ids : forall w q,
  enabled (vc w) = true ->
  has q (peers (vc (fold_left connect_if_new ids w))) = true ->
  has q (peers (vc w)) = true \/ (In q ids /\ q <> userId (vc w)).
Proof.
  induction ids as [|p ids IH]; intros w q En H; simpl in *; [now left|].
  destruct (connect_if_new_spec w p En) as (En1 & U1 & _ & _).
  destruct (IH _ q En1 H) as [H1 | [Hin Hne]].
  - apply connect_if_new_only in H1 as [H1 | [-> Hne]]; auto.
  - right. split; [now right | congruence].
Qed.

(** X5.  The registry after a proximity sync.  On an enabled chat, after
    [updateNearbyPeers(S)] the connected peers are exactly the members of
    [S] that were connected before or are not the user's own id: nobody
    outside [S] stays connected, everybody else in [S] is connected, and the
    chat does not connect to itself.  On a disabled chat the call changes
    nothing. *)
Theorem updateNearbyPeers_registry (ids : list string) (r : R) w :
  (enabled (vc w) = true ->
   forall q,
     In q (getConnectedPeers (updateNearbyPeers ids r w)) <->
     In q ids /\ (In q (getConnectedPeers w) \/ q <> userId (vc w))) /\
  (enabled (vc w) = false -> updateNearbyPeers ids r w = w).
Proof.
  assert (Hk : forall w0 q, In q (getConnectedPeers w0) <->
                            has q (peers (vc w0)) = true).
  { intros w0 q. unfold getConnectedPeers. rewrite has_true. split.
    - apply keys_get.
    - intros [v Hv]. eapply get_Some_keys; eauto. }
  split.
  - intros En q. rewrite !Hk. unfold updateNearbyPeers. rewrite En. simpl.
    set (wc := fold_left connect_if_new ids w).
    destruct (connect_loop_spec ids w En) as (Enc & Uc & Mc & Nc).
    fold wc in Enc, Uc, Mc, Nc.
    destruct (disconnect_loop_spec ids (keys (peers (vc wc))) wc)
      as (_ & _ & K1 & S1).
    split.
    + intros H. destruct (S1 _ H) as [Hc Hids].
      assert (Hin : In q ids).
      { apply Hids. apply has_true in Hc as [v Hv]. eapply get_Some_keys; eauto. }
      split; [easy|].
      destruct (connect_loop_only ids w q En Hc) as [|[_ ?]]; auto.
    + intros [Hin [Hb | Hne]]; apply K1; auto.
  - intros En. unfold updateNearbyPeers. now rewrite En.
Qed.

Lemma updateNearbyPeers_registry_witness :
  In "al" (getConnectedPeers (updateNearbyPeers ["al"; "bob"] 500 talking_world)).
Proof.
  destruct (updateNearbyPeers_registry ["al"; "bob"] 500 talking_world) as [H _].
  apply H; [reflexivity|]. split; [now left|]. right. discriminate.
Defined.
End Proximity.

Section Playback.
Import JSMap JSMapFacts.
Implicit Types (w : World).

Lemma AudioInv_frame w w' :
  audios w' = audios w -> audioElements (vc w') = audioElements (vc w) ->
  gains (vc w') = gains (vc w) -> AudioInv w -> AudioInv w'.
Proof. unfold AudioInv. now intros -> -> ->. Qed.

Ltac same_playback :=
  let Hinv := fresh "Hinv" in
  intros Hinv; repeat case_match; auto;
  revert Hinv; apply AudioInv_frame; reflexivity.

Lemma AudioInv_check bins w : AudioInv w -> AudioInv (check bins w).
Proof.
  intros Hinv. unfold check. repeat case_match; auto;
    revert Hinv; apply AudioInv_frame; reflexivity.
Qed.

Lemma AudioInv_init_continue h w : AudioInv w -> AudioInv (fst (init_continue h w)).
Proof.
  intros Hinv. unfold init_continue.
  destruct (h_ok h); [destruct (h_graph_ok h); [|destruct (h_context_ok h)]|];
    simpl.
  - unfold startVAD. case_match; [apply AudioInv_check|];
      revert Hinv; apply AudioInv_frame; reflexivity.
  - revert Hinv. apply AudioInv_frame; reflexivity.
  - revert Hinv. apply AudioInv_frame; reflexivity.
  - revert Hinv. apply AudioInv_frame; reflexivity.
Qed.

Lemma AudioInv_setDescription op ok h w w1 :
  setDescription op ok h w = Some w1 -> AudioInv w -> AudioInv w1.
Proof.
  unfold setDescription. intros E Hinv.
  destruct (pcs w !! h); [|discriminate]. destruct ok; [|discriminate].
  destruct (host_setDescription op _); [|discriminate].
  injection E as <-. revert Hinv. apply AudioInv_frame; reflexivity.
Qed.

Lemma AudioInv_send p type d w : AudioInv w -> AudioInv (send p type d w).
Proof. unfold send. destruct (signalSender (vc w)); [|auto]. now apply AudioInv_frame. Qed.

Lemma AudioInv_spawn t w : AudioInv w -> AudioInv (spawn t w).
Proof. now apply AudioInv_frame. Qed.

Lemma AudioInv_emit e w : AudioInv w -> AudioInv (emit e w).
Proof. now apply AudioInv_frame. Qed.

Lemma AudioInv_continue t h w : AudioInv w -> AudioInv (fst (continue t h w)).
Proof.
  intros Hinv. destruct t; simpl;
    auto using AudioInv_init_continue, AudioInv_check;
    try (destruct (setDescription _ _ _ _) eqn:E; simpl; [|exact Hinv];
         eapply AudioInv_setDescription in E; [|exact Hinv];
         auto using AudioInv_send, AudioInv_spawn);
    case_match; simpl; auto using AudioInv_spawn, AudioInv_emit.
Qed.

Lemma AudioInv_connectToPeer p w : AudioInv w -> AudioInv (fst (connectToPeer p w)).
Proof.
  intros Hinv. unfold connectToPeer, new_pc. case_match; simpl; [auto|].
  revert Hinv. apply AudioInv_frame; reflexivity.
Qed.

Lemma AudioInv_handleSignal s w : AudioInv w -> AudioInv (fst (handleSignal s w)).
Proof.
  intros Hinv. unfold handleSignal, new_pc.
  repeat case_match; simplify_eq; simpl; auto;
    revert Hinv; apply AudioInv_frame; reflexivity.
Qed.

Lemma AudioInv_updateSpatialAudio p d m t w :
  AudioInv w -> AudioInv (updateSpatialAudio p d m t w).
Proof.
  unfold updateSpatialAudio.
  destruct (get p (gains (vc w))) as [g|] eqn:Hg; [|auto].
  destruct (audioContext (vc w)); [|auto].
  intros [H1 H2]. split; simpl; [exact H1|].
  intros q Hq. apply has_set_inv in Hq as [->|Hq]; apply H2; [|easy].
  unfold has. now rewrite Hg.
Qed.

Lemma AudioInv_disconnectPeer p w : AudioInv w -> AudioInv (disconnectPeer p w).
Proof.
  intros [H1 H2]. rewrite disconnectPeer_eq. split; simpl.
  - intros a el Hl Hsrc.
    assert (Hold : exists el0, audios w !! a = Some el0 /\ srcObject el0 <> None /\
                               get p (audioElements (vc w)) <> Some a).
    { destruct (get p (audioElements (vc w))) as [a0|]; [|exists el; easy].
      destruct (decide (a0 = a)) as [->|Hne].
      - rewrite list_lookup_alter_eq in Hl.
        destruct (audios w !! a); simpl in Hl; [|discriminate].
        injection Hl as <-. now simpl in Hsrc.
      - rewrite list_lookup_alter_ne in Hl by easy. exists el.
        repeat split; auto. congruence. }
    destruct Hold as (el0 & Hl0 & Hs0 & Hnp).
    destruct (H1 _ _ Hl0 Hs0) as [q Hq]. exists q.
    rewrite get_delete_ne; [easy|]. intros ->. congruence.
  - intros q Hq. apply has_delete in Hq as [Hq Hne].
    apply H2 in Hq. unfold has in *. now rewrite get_delete_ne.
Qed.

Lemma ontrack_open pc stream w c :
  pcs w !! pc = Some c -> is_closed c = false ->
  audios (ontrack pc stream w) =
    match get (owner c) (audioElements (vc w)) with
    | Some a => alter release_el a (audios w)
    | None => audios w
    end ++ [mkAudioEl (Some stream) true] /\
  audioElements (vc (ontrack pc stream w)) =
    set (owner c) (length (audios w)) (audioElements (vc w)) /\
  gains (vc (ontrack pc stream w)) =
    match audioContext (vc w) with
    | Some _ => set (owner c) (mkGainNode 1 None) (gains (vc w))
    | None => gains (vc w)
    end.
Proof.
  intros Hc Ho. unfold ontrack. rewrite Hc, Ho.
  destruct w as [v ts ps au tk tr].
  destruct v as [? ? ac ? pe ga ae ? ? ? ? ? ? ? ?]. simpl.
  destruct (get (owner c) ae); simpl; destruct ac; simpl;
    rewrite ?length_alter; auto.
Qed.

Lemma AudioInv_ontrack pc stream w : AudioInv w -> AudioInv (ontrack pc stream w).
Proof.
  intros [H1 H2].
  destruct (pcs w !! pc) as [c|] eqn:Hc;
    [|unfold ontrack; rewrite Hc; now split].
  destruct (is_closed c) eqn:Ho;
    [unfold ontrack; rewrite Hc, Ho; now split|].
  destruct (ontrack_open pc stream w c Hc Ho) as (Ea & Ee & Eg).
  set (p := owner c) in *. unfold AudioInv. rewrite Ea, Ee, Eg. split.
  - intros a el Hl Hsrc.
    apply lookup_app_Some in Hl as [Hl | [Hge Hl]].
    + assert (Hold : exists el0, audios w !! a = Some el0 /\
                       srcObject el0 <> None /\
                       get p (audioElements (vc w)) <> Some a).
      { destruct (get p (audioElements (vc w))) as [a0|];
          [|exists el; easy].
        destruct (decide (a0 = a)) as [->|Hne].
        - rewrite list_lookup_alter_eq in Hl.
          destruct (audios w !! a); simpl in Hl; [|discriminate].
          injection Hl as <-. now simpl in Hsrc.
        - rewrite list_lookup_alter_ne in Hl by easy. exists el.
          repeat split; auto. congruence. }
      destruct Hold as (el0 & Hl0 & Hs0 & Hnp).
      destruct (H1 _ _ Hl0 Hs0) as [q Hq]. exists q.
      rewrite get_set_ne; [easy|]. intros <-. congruence.
    + assert (Hlen : length (match get p (audioElements (vc w)) with
                             | Some a0 => alter release_el a0 (audios w)
                             | None => audios w
                             end) = length (audios w)).
      { destruct (get p (audioElements (vc w))); now rewrite ?length_alter. }
      rewrite Hlen in *.
      destruct (a - length (audios w))%nat as [|k] eqn:E; simpl in Hl;
        [|discriminate].
      exists p. rewrite get_set_eq. f_equal. lia.
  - intros q Hq. destruct (audioContext (vc w)).
    + apply has_set_inv in Hq as [->|Hq].
      * apply has_set_same.
      * apply has_set_other. now apply H2.
    + apply has_set_other. now apply H2.
Qed.

Lemma AudioInv_onicecandidate pc cand w :
  AudioInv w -> AudioInv (onicecandidate pc cand w).
Proof. unfold onicecandidate, send. same_playback. Qed.

Lemma AudioInv_fold {A} (f : World -> A -> World) (l : list A) :
  (forall w a, AudioInv w -> AudioInv (f w a)) ->
  forall w, AudioInv w -> AudioInv (fold_left f l w).
Proof.
  intros Hf. induction l as [|a l IH]; intros w H; simpl; auto.
Qed.

Lemma AudioInv_updateNearbyPeers ids r w :
  AudioInv w -> AudioInv (updateNearbyPeers ids r w).
Proof.
  unfold updateNearbyPeers. destruct (negb (enabled (vc w))); [auto|].
  intros H. apply AudioInv_fold; [|apply AudioInv_fold; [|exact H]].
  - intros w' p Hw'. unfold disconnect_if_gone. case_match; [|auto].
    apply AudioInv_disconnectPeer. revert Hw'. apply AudioInv_frame; reflexivity.
  - intros w' p Hw'. unfold connect_if_new. repeat case_match; auto.
    apply AudioInv_connectToPeer. revert Hw'. apply AudioInv_frame; reflexivity.
Qed.

Lemma length_alter_all {A} (f : A -> A) hs :
  forall l : list A, length (alter_all f hs l) = length l.
Proof.
  induction hs as [|h hs IH]; intros l; [easy|].
  change (length (alter_all f hs (alter f h l)) = length l).
  rewrite IH. apply length_alter.
Qed.

Lemma AudioInv_disable w : AudioInv w -> AudioInv (disable w).
Proof.
  intros [H1 _]. rewrite disable_eq. split; simpl; [|discriminate].
  intros a el Hl Hsrc. exfalso.
  destruct (in_dec Nat.eq_dec a (values (audioElements (vc w)))) as [Hin|Hnin].
  - destruct (audios w !! a) as [el0|] eqn:E.
    + destruct (alter_all_mark release_el (fun e => srcObject e = None)
                  _ (fun _ => eq_refl) _ a el0 Hin E) as (el' & Hl' & Hs').
      congruence.
    + apply lookup_lt_Some in Hl. apply lookup_ge_None in E.
      rewrite length_alter_all in Hl. lia.
  - rewrite alter_all_other in Hl by easy.
    destruct (H1 _ _ Hl Hsrc) as [q Hq]. apply Hnin.
    eapply get_In_values; eauto.
Qed.

Lemma AudioInv_step a w : AudioInv w -> AudioInv (step a w).
Proof.
  destruct a; simpl;
    auto using AudioInv_connectToPeer, AudioInv_handleSignal,
      AudioInv_updateSpatialAudio, AudioInv_disconnectPeer,
      AudioInv_updateNearbyPeers, AudioInv_disable, AudioInv_ontrack,
      AudioInv_onicecandidate;
    try (apply AudioInv_frame; reflexivity).
  - unfold setPTT. same_playback.
  - destruct (tasks w !! i); [|auto]. intros H. apply AudioInv_continue.
    revert H. apply AudioInv_frame; reflexivity.
Qed.

(** X6.  No playback element is orphaned.  Along every schedule from a
    fresh chat, every [<audio>] element that still has a source is the
    element tracked for some peer (a replaced or disconnected element has
    had its source cleared), and every peer that has a gain node has a
    tracked playback element. *)
Theorem playback_elements_tracked (s : Settings) (acts : list Action) :
  let w := run acts (new_World s) in
  (forall a el, audios w !! a = Some el -> srcObject el <> None ->
     exists p, get p (audioElements (vc w)) = Some a) /\
  (forall p, has p (gains (vc w)) = true ->
     has p (audioElements (vc w)) = true).
Proof.
  assert (H : forall w, AudioInv w -> AudioInv (run acts w)).
  { induction acts as [|a acts IH]; intros w Hw; simpl; [easy|].
    apply IH. now apply AudioInv_step. }
  apply H. split; simpl; [|discriminate].
  intros a el Hl. now rewrite lookup_nil in Hl.
Qed.

Lemma playback_elements_tracked_witness :
  exists p, get p (audioElements (vc talking_world)) = Some 0%nat.
Proof.
  pose proof (playback_elements_tracked open_mic
                [Call_setSignalSender; Call_init; Settle 0 granted;
                 Call_connectToPeer "bob"; Fire_track 0 7]) as H.
  cbv zeta in H. destruct H as [H _].
  apply (H 0%nat (mkAudioEl (Some 7%nat) true)); [reflexivity | discriminate].
Defined.
End Playback.

Section Negotiation.
Import JSMap JSMapFacts.
Implicit Types (w : World).

Lemma lookup_snoc {A} (l : list A) x : (l ++ [x]) !! length l = Some x.
Proof. induction l; simpl; auto. Qed.

Lemma delete_snoc {A} (l : list A) x : base.delete (length l) (l ++ [x]) = l.
Proof. induction l; simpl; [easy|]. now f_equal. Qed.

Lemma insert_snoc {A} (l : list A) x y : <[length l := y]> (l ++ [x]) = l ++ [y].
Proof. induction l; simpl; [easy|]. now f_equal. Qed.

Ltac flat :=
  unfold spawn, emit, with_tasks, with_pcs;
  cbn [vc tracks pcs audios tasks trace].

Lemma settle_last v ts ps au tk tr t h :
  step (Settle (length tk) h) (mkWorld v ts ps au (tk ++ [t]) tr) =
  fst (continue t h (mkWorld v ts ps au tk tr)).
Proof.
  cbn [step tasks]. rewrite lookup_snoc. unfold with_tasks. cbn.
  now rewrite delete_snoc.
Qed.

Lemma connectToPeer_fresh p v ts ps au tk tr :
  enabled v = true -> has p (peers v) = false ->
  step (Call_connectToPeer p) (mkWorld v ts ps au tk tr) =
  mkWorld (set_peers (set p (length ps) (peers v)) v) ts
    (ps ++ [mkPeerConn p Stable false
              (match localStream v with Some hs => hs | None => [] end)])
    au (tk ++ [ConnectAwaitCreateOffer p (length ps)]) tr.
Proof. intros He Hp. cbn [step]. unfold connectToPeer. cbn. now rewrite He, Hp. Qed.

(** X7.  The calling side of a negotiation.  On an enabled chat with a
    sender, [connectToPeer] for an unregistered peer followed by a fulfilled
    [createOffer] and [setLocalDescription] sends exactly one envelope, the
    offer with the description the host created, to that peer; once the
    peer's answer has been applied the connection is stable with its remote
    description set, the peer is registered under the new connection, and
    no call is left pending. *)
Theorem offer_answer_round_trip p w (h1 h2 h3 : HostInput) (sdp : string) :
  enabled (vc w) = true -> signalSender (vc w) = true ->
  has p (peers (vc w)) = false ->
  h_ok h1 = true -> h_ok h2 = true -> h_ok h3 = true ->
  let i := length (tasks w) in
  let answer := mkSignal p "answer" (Some (mkPayload (Some sdp) None)) in
  let w1 := run [Call_connectToPeer p; Settle i h1; Settle i h2] w in
  let w2 := run [Call_handleSignal answer; Settle i h3] w1 in
  trace w1 = trace w ++ [Sent p "offer" (mkPayload (Some (h_sdp h1)) None)] /\
  pcs w1 = pcs w ++ [mkPeerConn p HaveLocalOffer false (stream_tracks w)] /\
  tasks w1 = tasks w /\
  trace w2 = trace w1 /\
  pcs w2 = pcs w ++ [mkPeerConn p Stable true (stream_tracks w)] /\
  tasks w2 = tasks w /\
  get p (peers (vc w2)) = Some (length (pcs w)).
Proof.
  intros He Hs Hp E1 E2 E3 i answer w1 w2.
  destruct w as [v ts ps au tk tr]. cbn [vc tasks pcs trace] in *.
  unfold stream_tracks. cbn [vc].
  set (trs := match localStream v with Some hs => hs | None => [] end).
  assert (Hw1 : w1 = mkWorld (set_peers (set p (length ps) (peers v)) v) ts
                       (ps ++ [mkPeerConn p HaveLocalOffer false trs]) au tk
                       (tr ++ [Sent p "offer" (mkPayload (Some (h_sdp h1)) None)])).
  { subst w1 i. unfold run. cbn [fold_left].
    rewrite connectToPeer_fresh by assumption. fold trs.
    rewrite settle_last. cbn [continue]. unfold createOffer_ok. cbn [pcs].
    rewrite lookup_snoc, E1. cbn -[step]. unfold spawn, with_tasks.
    cbn [vc tracks pcs audios tasks trace]. rewrite settle_last.
    cbn [continue]. unfold setDescription. cbn [pcs].
    rewrite lookup_snoc, E2. cbn -[step]. rewrite insert_snoc. unfold send.
    cbn. now rewrite Hs. }
  assert (Hw2 : w2 = mkWorld (set_peers (set p (length ps) (peers v)) v) ts
                       (ps ++ [mkPeerConn p Stable true trs]) au tk
                       (tr ++ [Sent p "offer" (mkPayload (Some (h_sdp h1)) None)])).
  { subst w2. rewrite Hw1. subst i. unfold run. cbn [fold_left].
    cbn [step]. unfold handleSignal. cbn -[get set].
    rewrite He, get_set_eq, lookup_snoc. cbn -[get set].
    rewrite lookup_snoc. cbn -[get set]. rewrite delete_snoc.
    unfold setDescription. cbn -[get set]. rewrite lookup_snoc, E3.
    cbn -[get set]. now rewrite insert_snoc. }
  rewrite Hw1, Hw2. cbn -[get set]. rewrite get_set_eq. auto 10.
Qed.

Lemma offer_answer_round_trip_witness :
  trace (run [Call_connectToPeer "bob"; Settle 1 (fulfilled "v=0 o");
              Settle 1 (fulfilled "")] ready_world) =
  trace ready_world ++ [Sent "bob" "offer" (mkPayload (Some "v=0 o") None)].
Proof.
  assert (He : enabled (vc ready_world) = true) by reflexivity.
  assert (Hs : signalSender (vc ready_world) = true) by reflexivity.
  assert (Hp : has "bob" (peers (vc ready_world)) = false) by reflexivity.
  destruct (offer_answer_round_trip "bob" ready_world (fulfilled "v=0 o")
              (fulfilled "") (fulfilled "") "v=0 a" He Hs Hp
              eq_refl eq_refl eq_refl) as [H _].
  exact H.
Defined.

Lemma handleSignal_offer_fresh p d v ts ps au tk tr :
  enabled v = true -> get p (peers v) = None ->
  step (Call_handleSignal (mkSignal p "offer" (Some d))) (mkWorld v ts ps au tk tr) =
  mkWorld (set_peers (set p (length ps) (peers v)) v) ts
    (ps ++ [mkPeerConn p Stable false
              (match localStream v with Some hs => hs | None => [] end)])
    au (tk ++ [OfferAwaitSetRemote p (length ps)]) tr.
Proof.
  intros He Hp. cbn [step]. unfold handleSignal. cbn -[get set].
  now rewrite He, Hp.
Qed.

(** X8.  The answering side of a negotiation.  On an enabled chat with a
    sender, an offer from an unregistered peer registers a new connection
    for it, and once [setRemoteDescription], [createAnswer] and
    [setLocalDescription] have fulfilled, exactly one envelope has been
    sent: the answer with the description the host created, to the peer
    that offered; the connection is stable with its remote description set
    and no call is left pending. *)
Theorem offer_answered p (d : Payload) w (h1 h2 h3 : HostInput) :
  enabled (vc w) = true -> signalSender (vc w) = true ->
  get p (peers (vc w)) = None ->
  h_ok h1 = true -> h_ok h2 = true -> h_ok h3 = true ->
  let i := length (tasks w) in
  let w' := run [Call_handleSignal (mkSignal p "offer" (Some d));
                 Settle i h1; Settle i h2; Settle i h3] w in
  trace w' = trace w ++ [Sent p "answer" (mkPayload (Some (h_sdp h2)) None)] /\
  pcs w' = pcs w ++ [mkPeerConn p Stable true (stream_tracks w)] /\
  tasks w' = tasks w /\
  get p (peers (vc w')) = Some (length (pcs w)).
Proof.
  intros He Hs Hp E1 E2 E3 i w'.
  destruct w as [v ts ps au tk tr]. cbn [vc tasks pcs trace] in *.
  unfold stream_tracks. cbn [vc].
  set (trs := match localStream v with Some hs => hs | None => [] end).
  assert (Hw : w' = mkWorld (set_peers (set p (length ps) (peers v)) v) ts
                      (ps ++ [mkPeerConn p Stable true trs]) au tk
                      (tr ++ [Sent p "answer" (mkPayload (Some (h_sdp h2)) None)])).
  { subst w' i. unfold run. cbn [fold_left].
    rewrite handleSignal_offer_fresh by assumption. fold trs.
    rewrite settle_last. cbn [continue]. unfold setDescription. cbn [pcs].
    rewrite lookup_snoc, E1. cbn -[step]. rewrite insert_snoc. flat.
    rewrite settle_last. cbn [continue]. unfold createAnswer_ok. cbn [pcs].
    rewrite lookup_snoc, E2. cbn -[step]. flat.
    rewrite settle_last. cbn [continue]. unfold setDescription. cbn [pcs].
    rewrite lookup_snoc, E3. cbn -[step]. rewrite insert_snoc. unfold send.
    cbn. now rewrite Hs. }
  rewrite Hw. cbn -[get set]. rewrite get_set_eq. auto.
Qed.

Lemma offer_answered_witness :
  trace (run [Call_handleSignal
                (mkSignal "bob" "offer" (Some (mkPayload (Some "v=0 o") None)));
              Settle 1 (fulfilled ""); Settle 1 (fulfilled "v=0 a");
              Settle 1 (fulfilled "")] ready_world) =
  trace ready_world ++ [Sent "bob" "answer" (mkPayload (Some "v=0 a") None)].
Proof.
  assert (He : enabled (vc ready_world) = true) by reflexivity.
  assert (Hs : signalSender (vc ready_world) = true) by reflexivity.
  assert (Hp : get "bob" (peers (vc ready_world)) = None) by reflexivity.
  destruct (offer_answered "bob" (mkPayload (Some "v=0 o") None) ready_world
              (fulfilled "") (fulfilled "v=0 a") (fulfilled "") He Hs Hp
              eq_refl eq_refl eq_refl) as [H _].
  exact H.
Defined.

(** X9.  A failed offer is not retried.  When [createOffer] rejects after
    [connectToPeer] registered the peer, nothing is sent and no call is
    left pending, but the peer stays registered with its never-negotiated
    connection: a later [connectToPeer] for it resolves to [null] and
    changes nothing, and the connecting loop of [updateNearbyPeers] passes
    over the peer. *)
Theorem failed_offer_not_retried p w (h : HostInput) :
  enabled (vc w) = true -> has p (peers (vc w)) = false -> h_ok h = false ->
  let w' := run [Call_connectToPeer p; Settle (length (tasks w)) h] w in
  trace w' = trace w /\ tasks w' = tasks w /\
  get p (peers (vc w')) = Some (length (pcs w)) /\
  pcs w' = pcs w ++ [mkPeerConn p Stable false (stream_tracks w)] /\
  connectToPeer p w' = (w', Resolved VNull) /\
  connect_if_new w' p = w'.
Proof.
  intros He Hp E w'.
  destruct w as [v ts ps au tk tr]. cbn [vc tasks pcs trace] in *.
  unfold stream_tracks. cbn [vc].
  set (trs := match localStream v with Some hs => hs | None => [] end).
  assert (Hw : w' = mkWorld (set_peers (set p (length ps) (peers v)) v) ts
                      (ps ++ [mkPeerConn p Stable false trs]) au tk tr).
  { subst w'. unfold run. cbn [fold_left].
    rewrite connectToPeer_fresh by assumption. fold trs.
    rewrite settle_last. cbn [continue]. unfold createOffer_ok. cbn [pcs].
    rewrite lookup_snoc, E. reflexivity. }
  rewrite Hw. unfold connectToPeer, connect_if_new. cbn -[get set has].
  rewrite has_set_same, get_set_eq, Bool.orb_true_r.
  repeat split. now destruct (String.eqb p (userId v)).
Qed.

Lemma failed_offer_not_retried_witness :
  connectToPeer "bob"
    (run [Call_connectToPeer "bob"; Settle 1 denied] ready_world) =
  (run [Call_connectToPeer "bob"; Settle 1 denied] ready_world, Resolved VNull).
Proof.
  assert (He : enabled (vc ready_world) = true) by reflexivity.
  assert (Hp : has "bob" (peers (vc ready_world)) = false) by reflexivity.
  destruct (failed_offer_not_retried "bob" ready_world denied He Hp eq_refl)
    as (_ & _ & _ & _ & H & _).
  exact H.
Defined.
End Negotiation.

Section Disabling.
Import JSMap JSMapFacts.
Implicit Types (w : World).

Lemma sends_app tr1 tr2 : sends (tr1 ++ tr2) = sends tr1 ++ sends tr2.
Proof.
  induction tr1 as [|e tr1 IH]; simpl; [easy|]. destruct e; simpl; congruence.
Qed.

Lemma is_closed_Closed c : is_closed c = true -> signalingState c = Closed.
Proof. unfold is_closed. now destruct (signalingState c). Qed.

Lemma disable_closes_all w :
  Good w -> forall h c, pcs (disable w) !! h = Some c -> is_closed c = true.
Proof.
  intros [[_ Hopen] _] h c. rewrite disable_eq. cbn [pcs]. unfold close_all.
  intros Hl.
  assert (Hlt : (h < length (pcs w))%nat).
  { apply lookup_lt_Some in Hl. now rewrite length_alter_all in Hl. }
  destruct (lookup_lt_is_Some_2 _ _ Hlt) as [c0 Hc0].
  destruct (is_closed c0) eqn:Ec.
  - destruct (alter_all_keep close_conn (fun c => is_closed c = true)
                (values (peers (vc w))) (fun _ _ => eq_refl) _ _ _ Hc0 Ec)
      as (c' & Hl' & Hc'). congruence.
  - pose proof (Hopen _ _ Hc0 Ec) as Hreg. apply get_In_values in Hreg.
    destruct (alter_all_mark close_conn (fun c => is_closed c = true)
                (values (peers (vc w))) (fun _ => eq_refl) _ _ _ Hreg Hc0)
      as (c' & Hl' & Hc'). congruence.
Qed.

Lemma settle_on_closed w t h :
  enabled (vc w) = false ->
  (forall pc c, pcs w !! pc = Some c -> is_closed c = true) ->
  t <> InitAwaitUserMedia ->
  let w' := fst (continue t h w) in
  sends (trace w') = sends (trace w) /\ vc w' = vc w /\ tracks w' = tracks w /\
  pcs w' = pcs w /\ audios w' = audios w /\ tasks w' = tasks w.
Proof.
  intros He Hall Ht.
  assert (Hst : forall pc c, pcs w !! pc = Some c -> signalingState c = Closed).
  { intros pc c Hl. apply is_closed_Closed. eauto. }
  destruct t; cbn [continue]; try congruence;
    unfold createOffer_ok, createAnswer_ok, addIceCandidate_ok, setDescription;
    try (destruct (pcs w !! pc) as [c|] eqn:Hl;
         [rewrite ?(Hall _ _ Hl), ?(Hst _ _ Hl); destruct (h_ok h)|]);
    cbn; rewrite ?sends_app, ?app_nil_r; auto 10.
  unfold check. rewrite He. cbn. auto 10.
Qed.

(** X10.  [disable()] cancels the negotiations in flight.  In every world
    the chat can reach, once [disable()] has run, whatever the host then
    settles for a pending call other than a pending [init()] opens no
    connection, registers nothing and sends nothing: the call just ends,
    and the object, the tracks, the connections and the playback elements
    stay as [disable()] left them.  Connection events do nothing either. *)
Theorem disable_cancels_negotiations (s : Settings) (acts : list Action)
    (i : nat) (t : Task) (h : HostInput) :
  let w := disable (run acts (new_World s)) in
  tasks w !! i = Some t -> t <> InitAwaitUserMedia ->
  let w' := step (Settle i h) w in
  sends (trace w') = sends (trace w) /\ vc w' = vc w /\ tracks w' = tracks w /\
  pcs w' = pcs w /\ audios w' = audios w /\
  tasks w' = base.delete i (tasks w) /\
  (forall pc stream, ontrack pc stream w = w) /\
  (forall pc cand, onicecandidate pc cand w = w).
Proof.
  intros w Hi Ht w'.
  assert (Hall : forall pc c, pcs w !! pc = Some c -> is_closed c = true).
  { apply disable_closes_all, Good_run, Good_new_World. }
  assert (He : enabled (vc w) = false).
  { subst w. now rewrite disable_eq. }
  subst w'. clearbody w. cbn [step]. rewrite Hi.
  destruct (settle_on_closed (with_tasks (base.delete i (tasks w)) w) t h
              He Hall Ht) as (H1 & H2 & H3 & H4 & H5 & H6).
  repeat split; auto.
  - intros pc stream. unfold ontrack.
    destruct (pcs w !! pc) as [c|] eqn:Hl; [|easy]. now rewrite (Hall _ _ Hl).
  - intros pc cand. unfold onicecandidate.
    destruct (pcs w !! pc) as [c|] eqn:Hl; [|easy]. now rewrite (Hall _ _ Hl).
Qed.

Lemma disable_cancels_negotiations_witness :
  let w := disable (run [Call_setSignalSender; Call_init; Settle 0 granted;
                         Call_connectToPeer "bob"] (new_World open_mic)) in
  sends (trace (step (Settle 1 (fulfilled "v=0")) w)) = sends (trace w).
Proof.
  intros w.
  assert (Hi : tasks w !! 1%nat = Some (ConnectAwaitCreateOffer "bob" 0))
    by reflexivity.
  assert (Ht : ConnectAwaitCreateOffer "bob" 0 <> InitAwaitUserMedia)
    by discriminate.
  destruct (disable_cancels_negotiations open_mic
              [Call_setSignalSender; Call_init; Settle 0 granted;
               Call_connectToPeer "bob"] 1 _ (fulfilled "v=0") Hi Ht) as [H _].
  exact H.
Defined.

Lemma enabled_check bins w : enabled (vc (check bins w)) = enabled (vc w).
Proof. unfold check. repeat case_match; reflexivity. Qed.

Lemma localStream_check bins w : localStream (vc (check bins w)) = localStream (vc w).
Proof. unfold check. repeat case_match; reflexivity. Qed.

Lemma init_continue_granted h w :
  h_ok h = true -> h_graph_ok h = true ->
  enabled (vc (fst (init_continue h w))) = true /\
  localStream (vc (fst (init_continue h w))) =
    Some (seq (length (tracks w)) (length (h_tracks h))).
Proof.
  intros E1 E2. unfold init_continue. rewrite E1, E2. cbn [fst].
  unfold startVAD. destruct w as [v ts ps au tk tr]. cbn -[check].
  now rewrite enabled_check, localStream_check.
Qed.

(** X11.  [disable()] does not cancel a pending [init()].  If [disable()]
    runs while [init()] still awaits the microphone and the microphone is
    then granted (and the audio graph is built), the chat ends up enabled
    again, holding the newly granted stream. *)
Theorem disable_keeps_pending_init w (i : nat) (h : HostInput) :
  tasks w !! i = Some InitAwaitUserMedia ->
  h_ok h = true -> h_graph_ok h = true ->
  let w' := step (Settle i h) (disable w) in
  enabled (vc w') = true /\
  localStream (vc w') = Some (seq (length (tracks w)) (length (h_tracks h))).
Proof.
  intros Hi E1 E2 w'. subst w'. cbn [step].
  assert (Ht : tasks (disable w) = tasks w) by now rewrite disable_eq.
  assert (Hlen : length (tracks (disable w)) = length (tracks w)).
  { rewrite disable_eq. cbn [tracks]. destruct (localStream (vc w)); [|easy].
    apply length_alter_all. }
  rewrite Ht, Hi. cbn [continue]. rewrite <- Hlen.
  generalize (disable w). intros w0.
  apply (init_continue_granted h (with_tasks (base.delete i (tasks w)) w0) E1 E2).
Qed.

Lemma disable_keeps_pending_init_witness :
  enabled (vc (step (Settle 0 granted)
                 (disable (run [Call_init] (new_World open_mic))))) = true.
Proof.
  destruct (disable_keeps_pending_init (run [Call_init] (new_World open_mic))
              0 granted eq_refl eq_refl eq_refl) as [H _].
  exact H.
Defined.
End Disabling.

Section Gate.
Implicit Types (w : World).

Lemma alter_all_lookup {A} (f : A -> A) (Hf : forall a, f (f a) = f a) hs :
  forall (l : list A) h,
    alter_all f hs l !! h =
    if in_dec Nat.eq_dec h hs then f <$> l !! h else l !! h.
Proof.
  induction hs as [|h0 hs IH]; intros l h; [easy|].
  change (alter_all f (h0 :: hs) l) with (alter_all f hs (alter f h0 l)).
  rewrite IH. destruct (decide (h0 = h)) as [->|Hne].
  - rewrite list_lookup_alter_eq.
    destruct (in_dec Nat.eq_dec h (h :: hs)) as [_|Hn]; [|destruct Hn; now left].
    destruct (in_dec Nat.eq_dec h hs); [|easy].
    destruct (l !! h); simpl; [|easy]. now rewrite Hf.
  - rewrite list_lookup_alter_ne by easy.
    destruct (in_dec Nat.eq_dec h hs) as [Hi|Hn];
      destruct (in_dec Nat.eq_dec h (h0 :: hs)) as [Hi'|Hn']; try easy.
    + destruct Hn'. now right.
    + destruct Hi' as [->|Hi']; easy.
Qed.

Lemma gate_track_idem b t : gate_track b (gate_track b t) = gate_track b t.
Proof. reflexivity. Qed.

Lemma is_audio_gate_tracks b hs ts h :
  is_audio (gate_tracks b hs ts) h = is_audio ts h.
Proof.
  unfold is_audio, gate_tracks.
  rewrite (alter_all_lookup _ (gate_track_idem b)).
  destruct (in_dec Nat.eq_dec h hs); [|easy]. now destruct (ts !! h).
Qed.

Lemma gate_tracks_twice b1 b2 hs ts :
  gate_tracks b2 hs (gate_tracks b1 hs ts) = gate_tracks b2 hs ts.
Proof.
  apply list_eq. intros h. unfold gate_tracks.
  rewrite !(alter_all_lookup _ (gate_track_idem b2)).
  rewrite (alter_all_lookup _ (gate_track_idem b1)).
  destruct (in_dec Nat.eq_dec h hs); [|easy]. now destruct (ts !! h).
Qed.

(** X12.  The last [setPTT] wins.  Two calls in a row leave the chat and
    every track exactly as the second call alone would: the first call
    leaves nothing behind, whichever tracks the stream has. *)
Theorem setPTT_last_wins (b1 b2 : bool) w :
  setPTT b2 (setPTT b1 w) = setPTT b2 w.
Proof.
  destruct w as [v ts ps au tk tr].
  destruct v as [? ls ? ? ? ? ? ? ? ? ? ? ? ? ?].
  unfold setPTT. cbn. destruct ls as [hs|]; cbn; [|reflexivity].
  assert (Hf : getAudioTracks (gate_tracks b1 (getAudioTracks ts hs) ts) hs =
               getAudioTracks ts hs).
  { unfold getAudioTracks. apply List.filter_ext. intros h.
    apply is_audio_gate_tracks. }
  now rewrite Hf, gate_tracks_twice.
Qed.
End Gate.

Section Guardians.
Import Bot.

(** Exact arithmetic is one rounding. *)
Lemma identity_rounding : rounding (fun a : R => a).
Proof. constructor; intros; [assumption | reflexivity | reflexivity]. Qed.

Lemma MAX_DRAW_lt_1 : 0 < MAX_DRAW < 1.
Proof.
  unfold MAX_DRAW.
  assert (H : 0 < / 2 ^ 53) by (apply Rinv_0_lt_compat, pow_lt; Lra.lra).
  assert (H2 : 1 < 2 ^ 53) by (apply Rlt_pow_R1; [Lra.lra | lia]).
  assert (H1 : / 2 ^ 53 < / 1).
  { apply Rinv_lt_contravar; [Lra.lra | exact H2]. }
  rewrite Rinv_1 in H1. Lra.lra.
Qed.

(** X13.  A new guardian.  Whatever [Math.random()] returns (numbers in
    [0, 1)), and with every sum and product rounded to a double,
    [createBot] gives a guardian at the asked position that stands still
    with all three timers at zero, has a hue from 180 to 240, an xp from
    100 to 900 and a heading from 0 to [2 pi] (the upper ends included:
    rounding can reach them), is named Guardian, and lives in the asked
    realm, or in genesis when none is given.  The heading stays within
    [2 pi] because twice [Math.PI], rounded, does. *)
Theorem createBot_ranges (rnd : R -> R) (x0 y0 : R) (realm0 : option string)
    (suffix : string) (r_hue r_xp r_angle : R) :
  rounding rnd -> rnd (rnd PI * 2) <= 2 * PI ->
  0 <= r_hue < 1 -> 0 <= r_xp < 1 -> 0 <= r_angle < 1 ->
  let bot := createBot rnd x0 y0 realm0 suffix r_hue r_xp r_angle in
  (x bot = x0 /\ y bot = y0 /\ vx bot = 0 /\ vy bot = 0) /\
  (timer bot = 0 /\ actionTimer bot = 0 /\ thinkTimer bot = 0) /\
  180 <= hue bot <= 240 /\ 100 <= xp bot <= 900 /\
  0 <= moveAngle bot <= 2 * PI /\
  name bot = "Guardian" /\
  realm bot = match realm0 with Some r => r | None => "genesis" end.
Proof.
  intros [Hmono Hidem Hint] Hpi Hh Hx Ha bot. subst bot. cbn.
  assert (Hexact : forall n : Z, (Z.abs n <= 1000)%Z -> rnd (IZR n) = IZR n).
  { intros n Hn. apply Hint. change (2 ^ 53)%Z with 9007199254740992%Z. lia. }
  assert (Hsum : forall (base scale : Z) (d : R),
             (0 <= base)%Z -> (0 <= scale)%Z -> (base + scale <= 1000)%Z ->
             0 <= d < 1 ->
             IZR base <= rnd (IZR base + rnd (d * IZR scale))
                      <= IZR (base + scale)).
  { intros base scale d Hb Hs Hbs [Hd0 Hd1].
    assert (H0 : 0 <= IZR scale) by now apply IZR_le.
    assert (Hp : 0 <= rnd (d * IZR scale) <= IZR scale).
    { split.
      - rewrite <- (Hexact 0%Z) by lia. apply Hmono. now apply Rmult_le_pos.
      - rewrite <- (Hexact scale) at 2 by lia. apply Hmono. Lra.nra. }
    split.
    - rewrite <- (Hexact base) at 1 by lia. apply Hmono. Lra.lra.
    - rewrite <- (Hexact (base + scale)%Z) by lia. apply Hmono.
      rewrite plus_IZR. Lra.lra. }
  pose proof (Hsum 180 60 r_hue)%Z as Hhue.
  pose proof (Hsum 100 800 r_xp)%Z as Hxp.
  assert (Hpi0 : 0 <= rnd PI).
  { rewrite <- (Hexact 0%Z) by lia. apply Hmono. left. apply PI_RGT_0. }
  assert (Hang : 0 <= rnd (r_angle * rnd PI) <= rnd PI).
  { split.
    - rewrite <- (Hexact 0%Z) by lia. apply Hmono.
      apply Rmult_le_pos; [easy | exact Hpi0].
    - rewrite <- (Hidem PI) at 2. apply Hmono. Lra.nra. }
  repeat split; auto.
  - apply Hhue; [lia | lia | lia | exact Hh].
  - apply Hhue; [lia | lia | lia | exact Hh].
  - apply Hxp; [lia | lia | lia | exact Hx].
  - apply Hxp; [lia | lia | lia | exact Hx].
  - rewrite <- (Hexact 0%Z) by lia. apply Hmono. Lra.lra.
  - apply Rle_trans with (rnd (rnd PI * 2)); [|exact Hpi].
    apply Hmono. Lra.lra.
Qed.

Lemma createBot_ranges_witness :
  180 <= hue (createBot (fun a => a) 0 0 None "k3x9q2m1z" (1/2) (1/4) 0) <= 240.
Proof.
  assert (Hpi : (fun a : R => a) ((fun a : R => a) PI * 2) <= 2 * PI)
    by (cbv beta; Lra.lra).
  assert (H : 0 <= 1/2 < 1) by Lra.lra.
  assert (H' : 0 <= 1/4 < 1) by Lra.lra.
  assert (H'' : 0 <= 0 < 1) by Lra.lra.
  destruct (createBot_ranges (fun a => a) 0 0 None "k3x9q2m1z" (1/2) (1/4) 0
              identity_rounding Hpi H H' H'')
    as (_ & _ & Hhue & _).
  exact Hhue.
Defined.

Lemma timers_ticks (inputs : list TickInput) :
  forall bot,
    actionTimer (ticks inputs bot) = actionTimer bot + INR (length inputs) /\
    thinkTimer (ticks inputs bot) = thinkTimer bot + INR (length inputs) /\
    timer (ticks inputs bot) = timer bot + INR (length inputs).
Proof.
  unfold ticks. induction inputs as [|i inputs IH]; intros bot.
  - cbn. repeat split; ring.
  - cbn [fold_left length]. rewrite S_INR.
    destruct (IH (updateBot bot (tick_zeros i) (tick_targetX i)
                    (tick_targetY i) (tick_r1 i) (tick_r2 i)))
      as (H1 & H2 & H3).
    rewrite H1, H2, H3. cbn. repeat split; ring.
Qed.

Lemma lt_INR_const (k n : nat) : IZR (Z.of_nat k) < INR n <-> (k < n)%nat.
Proof.
  rewrite INR_IZR_INZ. split; intros H.
  - apply lt_IZR in H. lia.
  - apply IZR_lt. lia.
Qed.

(** X15.  The cooldowns of a guardian.  After [resetBotActionTimer] and
    any sequence of updates, [shouldBotSing] answers true exactly when
    more than 300 updates have run and the draw is below 0.005; after
    [resetBotThinkTimer], [shouldBotSpeak] answers true exactly when more
    than 500 updates have run and the draw is below 0.002.  Neither reset
    touches the other timer. *)
Theorem guardian_cooldowns (inputs : list TickInput) (bot : Bot) (r : R) :
  (shouldBotSing (ticks inputs (resetBotActionTimer bot)) r = true <->
     (300 < length inputs)%nat /\ r < 0.005) /\
  (shouldBotSpeak (ticks inputs (resetBotThinkTimer bot)) r = true <->
     (500 < length inputs)%nat /\ r < 0.002) /\
  thinkTimer (resetBotActionTimer bot) = thinkTimer bot /\
  actionTimer (resetBotThinkTimer bot) = actionTimer bot.
Proof.
  unfold shouldBotSing, shouldBotSpeak.
  destruct (timers_ticks inputs (resetBotActionTimer bot)) as (Ha & _ & _).
  destruct (timers_ticks inputs (resetBotThinkTimer bot)) as (_ & Ht & _).
  rewrite Ha, Ht. cbn [actionTimer thinkTimer resetBotActionTimer resetBotThinkTimer].
  rewrite !Rplus_0_l, !Bool.andb_true_iff, !Rltb_true.
  change 300 with (IZR (Z.of_nat 300)). change 500 with (IZR (Z.of_nat 500)).
  rewrite !lt_INR_const. tauto.
Qed.

Lemma Int_part_bounds (r : R) (n : Z) :
  0 <= r -> r < IZR n -> (0 <= Int_part r < n)%Z.
Proof.
  intros H0 Hn. destruct (base_Int_part r) as [Hle Hgt]. split.
  - assert (H : IZR (-1) < IZR (Int_part r)) by (simpl; Lra.lra).
    apply lt_IZR in H. lia.
  - apply lt_IZR. Lra.lra.
Qed.

(** X16.  A guardian always has something to say.  For every draw, a
    double from 0 to the largest one below 1, [getRandomBotThought] returns
    one of the twelve thoughts, never [undefined]: the product of the draw
    and 12, rounded to a double, stays below 12 because it does for the
    largest draw. *)
Theorem getRandomBotThought_defined (rnd : R -> R) (r : R) :
  rounding rnd -> rnd (MAX_DRAW * 12) < 12 -> 0 <= r <= MAX_DRAW ->
  exists s, getRandomBotThought rnd r = Some s /\ In s BOT_THOUGHTS.
Proof.
  intros [Hmono _ Hint] Hmax [H0 H1].
  assert (Hlen : INR (length BOT_THOUGHTS) = 12).
  { rewrite INR_IZR_INZ. reflexivity. }
  unfold getRandomBotThought, index. rewrite Hlen.
  assert (Hlo : 0 <= rnd (r * 12)).
  { rewrite <- (Hint 0%Z) by (change (2 ^ 53)%Z with 9007199254740992%Z; lia).
    apply Hmono. Lra.lra. }
  assert (Hhi : rnd (r * 12) < 12).
  { apply Rle_lt_trans with (rnd (MAX_DRAW * 12)); [|exact Hmax].
    apply Hmono. Lra.lra. }
  destruct (Int_part_bounds (rnd (r * 12)) 12 Hlo Hhi) as [Hz0 Hz1].
  destruct (Z.ltb_spec (Int_part (rnd (r * 12))) 0) as [|_]; [lia|].
  destruct (nth_error BOT_THOUGHTS (Z.to_nat (Int_part (rnd (r * 12)))))
    as [s|] eqn:E.
  - exists s. split; [easy|]. eapply List.nth_error_In; eauto.
  - apply List.nth_error_None in E.
    change (length BOT_THOUGHTS) with 12%nat in E. lia.
Qed.

Lemma getRandomBotThought_defined_witness :
  exists s, getRandomBotThought (fun a => a) (1 / 2) = Some s /\
            In s BOT_THOUGHTS.
Proof.
  pose proof MAX_DRAW_lt_1 as [Hm0 Hm1].
  assert (Hmax : (fun a : R => a) (MAX_DRAW * 12) < 12)
    by (cbv beta; Lra.lra).
  apply (getRandomBotThought_defined (fun a => a) (1 / 2)
           identity_rounding Hmax).
  unfold MAX_DRAW in *.
  assert (H : / 2 ^ 53 <= / 2).
  { apply Rinv_le_contravar; [Lra.lra|].
    change 53%nat with (S 52). rewrite <- tech_pow_Rmult.
    assert (1 <= 2 ^ 52) by (apply pow_R1_Rle; Lra.lra). Lra.lra. }
  Lra.lra.
Defined.
End Guardians.

Section Levels.
Import Constants.

Ltac thresholds :=
  repeat match goal with
         | H : Qle_bool _ _ = true |- _ => apply Qle_bool_iff in H
         | H : Qle_bool ?a ?b = false |- _ =>
             assert (~ (a <= b)%Q)
               by (let Hab := fresh in
                   intros Hab; apply Qle_bool_iff in Hab; congruence);
             clear H
         end.

Ltac by_thresholds xp :=
  unfold getLevel; cbn [getLevel_from length LEVEL_XP nth];
  repeat (let E := fresh "E" in
          match goal with
          | |- context [Qle_bool ?a xp] => destruct (Qle_bool a xp) eqn:E
          end);
  thresholds.

(** X17.  Levels.  [getLevel] answers a level from 1 to 9 for every xp; it
    never goes down when xp goes up; and level [l] (from 2 on) is reached
    exactly when xp is at least the threshold [LEVEL_XP[l - 1]], so that an
    xp below every threshold, such as a negative one, is level 1. *)
Theorem getLevel_thresholds :
  (forall xp, (1 <= getLevel xp <= 9)%Z) /\
  (forall xp xp', (xp <= xp')%Q -> (getLevel xp <= getLevel xp')%Z) /\
  (forall xp (l : nat), (1 <= l < length LEVEL_XP)%nat ->
     ((Z.of_nat l + 1 <= getLevel xp)%Z <-> (nth l LEVEL_XP 0 <= xp)%Q)).
Proof.
  split; [|split].
  - intros xp. by_thresholds xp; cbn; lia.
  - intros xp xp' Hle. unfold getLevel.
    cbn [getLevel_from length LEVEL_XP nth].
    repeat (let E := fresh "E" in
            match goal with
            | |- context [Qle_bool ?a xp] => destruct (Qle_bool a xp) eqn:E
            end);
    thresholds;
    repeat (let E := fresh "E" in
            match goal with
            | |- context [Qle_bool ?a xp'] => destruct (Qle_bool a xp') eqn:E
            end);
    thresholds; cbn; try lia; exfalso; Lqa.lra.
  - intros xp l [Hl1 Hl2]. change (length LEVEL_XP) with 9%nat in Hl2.
    assert (Hl : (l = 1 \/ l = 2 \/ l = 3 \/ l = 4 \/ l = 5 \/ l = 6 \/
                  l = 7 \/ l = 8)%nat) by lia.
    by_thresholds xp;
      decompose [or] Hl; subst l; cbn [nth LEVEL_XP]; cbn;
      split; intros; try lia; try Lqa.lra; exfalso; Lqa.lra.
Qed.

Lemma getLevel_thresholds_witness :
  (getLevel 250 <= getLevel 699)%Z.
Proof.
  destruct getLevel_thresholds as (_ & H & _).
  apply (H 250%Q 699%Q). discriminate.
Defined.

(** X18.  Forms.  Every xp has a form: [getForm (getLevel xp)] is never
    [undefined] and is one of the eight forms.  Levels 1 to 8 have the
    forms in order; from level 8 on the form is the last one, Infinite, so
    level 9 brings no new form; a level of 0 or less has no form. *)
Theorem getForm_of_level :
  (forall xp, exists f, getForm (getLevel xp) = Some f /\ In f FORMS) /\
  (forall l, (1 <= l <= 8)%Z -> getForm l = nth_error FORMS (Z.to_nat (l - 1))) /\
  (forall l, (8 <= l)%Z -> getForm l = Some "Infinite") /\
  (forall l, (l <= 0)%Z -> getForm l = None).
Proof.
  split; [|split; [|split]].
  - intros xp. by_thresholds xp; cbn; eexists; (split; [reflexivity|]);
      cbn; auto 10.
  - intros l Hl. unfold getForm. change (Z.of_nat (length FORMS) - 1)%Z with 7%Z.
    rewrite Z.min_l by lia.
    destruct (Z.ltb_spec (l - 1) 0); [lia | reflexivity].
  - intros l Hl. unfold getForm. change (Z.of_nat (length FORMS) - 1)%Z with 7%Z.
    rewrite Z.min_r by lia. reflexivity.
  - intros l Hl. unfold getForm. change (Z.of_nat (length FORMS) - 1)%Z with 7%Z.
    rewrite Z.min_l by lia.
    destruct (Z.ltb_spec (l - 1) 0); [reflexivity | lia].
Qed.

Lemma getForm_of_level_witness : getForm 12 = Some "Infinite".
Proof.
  destruct getForm_of_level as (_ & _ & H & _).
  apply (H 12%Z). lia.
Defined.
End Levels.

Section Senderless.
Import JSMap JSMapFacts.
Implicit Types (w : World).

Lemma Mute_refl w : Mute w w.
Proof. now intros H. Qed.

Lemma Mute_trans w1 w2 w3 : Mute w1 w2 -> Mute w2 w3 -> Mute w1 w3.
Proof.
  intros H12 H23 H. destruct (H12 H) as [H2 E2]. destruct (H23 H2) as [H3 E3].
  split; congruence.
Qed.

Lemma Mute_frame w w' :
  signalSender (vc w') = signalSender (vc w) ->
  sends (trace w') = sends (trace w) -> Mute w w'.
Proof. intros Hs Ht H. split; congruence. Qed.

Ltac mute := apply Mute_frame; cbn; rewrite ?sends_app, ?app_nil_r; reflexivity.

Lemma Mute_emit e w :
  match e with Sent _ _ _ => False | _ => True end -> Mute w (emit e w).
Proof. intros He. apply Mute_frame; cbn; [easy|]. rewrite sends_app. destruct e; cbn; try easy; apply app_nil_r. Qed.

Lemma Mute_spawn t w : Mute w (spawn t w).
Proof. mute. Qed.

Lemma Mute_send p type d w : Mute w (send p type d w).
Proof. intros H. unfold send. now rewrite H. Qed.

Lemma Mute_check bins w : Mute w (check bins w).
Proof. unfold check. repeat case_match; try apply Mute_refl; mute. Qed.

Lemma Mute_init_continue h w : Mute w (fst (init_continue h w)).
Proof.
  unfold init_continue.
  destruct (h_ok h); [destruct (h_graph_ok h); [|destruct (h_context_ok h)]|];
    cbn [fst]; try mute.
  unfold startVAD. case_match; [|mute].
  eapply Mute_trans; [|apply Mute_check]. mute.
Qed.

Lemma Mute_setDescription op ok h w w1 :
  setDescription op ok h w = Some w1 -> Mute w w1.
Proof.
  unfold setDescription. intros E.
  destruct (pcs w !! h); [|discriminate]. destruct ok; [|discriminate].
  destruct (host_setDescription op _); [|discriminate].
  injection E as <-. mute.
Qed.

Lemma Mute_continue t h w : Mute w (fst (continue t h w)).
Proof.
  destruct t; cbn [continue fst];
    auto using Mute_init_continue, Mute_check;
    try (destruct (setDescription _ _ _ _) eqn:E; cbn [fst];
         [apply Mute_setDescription in E|apply Mute_refl];
         try (eapply Mute_trans; [exact E|]);
         auto using Mute_send, Mute_spawn, Mute_refl);
    try (case_match; cbn [fst]; auto using Mute_spawn, Mute_refl).
  now apply Mute_emit.
Qed.

Lemma Mute_connectToPeer p w : Mute w (fst (connectToPeer p w)).
Proof.
  unfold connectToPeer, new_pc. case_match; cbn [fst]; [apply Mute_refl|mute].
Qed.

Lemma Mute_handleSignal s w : Mute w (fst (handleSignal s w)).
Proof.
  unfold handleSignal, new_pc.
  repeat case_match; simplify_eq; cbn [fst]; try apply Mute_refl; mute.
Qed.

Lemma Mute_disconnectPeer p w : Mute w (disconnectPeer p w).
Proof. rewrite disconnectPeer_eq. mute. Qed.

Lemma Mute_fold {A} (f : World -> A -> World) (l : list A) :
  (forall w a, Mute w (f w a)) -> forall w, Mute w (fold_left f l w).
Proof.
  intros Hf. induction l as [|a l IH]; intros w; cbn [fold_left].
  - apply Mute_refl.
  - eapply Mute_trans; [apply Hf | apply IH].
Qed.

Lemma Mute_updateNearbyPeers ids r w : Mute w (updateNearbyPeers ids r w).
Proof.
  unfold updateNearbyPeers. case_match; [apply Mute_refl|].
  eapply Mute_trans;
    [apply (Mute_fold connect_if_new)
    |apply (Mute_fold (disconnect_if_gone ids))].
  - intros w' p. unfold connect_if_new. repeat case_match; try apply Mute_refl.
    eapply Mute_trans; [|apply Mute_connectToPeer]. now apply Mute_emit.
  - intros w' p. unfold disconnect_if_gone. case_match; [|apply Mute_refl].
    eapply Mute_trans; [|apply Mute_disconnectPeer]. now apply Mute_emit.
Qed.

Lemma Mute_ontrack pc stream w : Mute w (ontrack pc stream w).
Proof.
  unfold ontrack, release_audio. repeat case_match; try apply Mute_refl; mute.
Qed.

Lemma Mute_step a w : a <> Call_setSignalSender -> Mute w (step a w).
Proof.
  intros Ha. destruct a; cbn [step]; try congruence;
    auto using Mute_connectToPeer, Mute_handleSignal, Mute_disconnectPeer,
      Mute_updateNearbyPeers, Mute_ontrack, Mute_spawn;
    try mute.
  - unfold setPTT. case_match; mute.
  - unfold updateSpatialAudio. repeat case_match; try apply Mute_refl; mute.
  - rewrite disable_eq. mute.
  - case_match; [|apply Mute_refl].
    eapply Mute_trans; [|apply Mute_continue]. mute.
  - unfold onicecandidate. repeat case_match; try apply Mute_refl.
    apply Mute_send.
Qed.

(** X19.  Nothing is sent before a sender is installed.  Along every
    schedule from a fresh chat in which [setSignalSender] is never called,
    no envelope is handed out: offers, answers and candidates of the
    negotiations that run meanwhile are dropped, not queued. *)
Theorem no_sender_no_envelope (s : Settings) (acts : list Action) :
  ~ In Call_setSignalSender acts ->
  sends (trace (run acts (new_World s))) = [].
Proof.
  intros Hn.
  assert (H : forall w, Mute w (run acts w)).
  { induction acts as [|a acts IH]; intros w.
    - apply Mute_refl.
    - change (run (a :: acts) w) with (run acts (step a w)).
      apply (Mute_trans w (step a w)).
      + apply Mute_step. intros ->. apply Hn. now left.
      + apply IH. intros Hin. apply Hn. now right. }
  destruct (H (new_World s) eq_refl) as [_ E]. exact E.
Qed.

Lemma no_sender_no_envelope_witness :
  sends (trace (run [Call_init; Settle 0 granted; Call_connectToPeer "bob";
                     Settle 1 (fulfilled "v=0"); Settle 1 (fulfilled "")]
                  (new_World open_mic))) = [].
Proof.
  apply no_sender_no_envelope.
  intros H. repeat (destruct H as [H|H]; [discriminate|]). exact H.
Defined.
End Senderless.
